(** * Transient Notes: the rich-text formatting functions of [app.js]

    A shallow embedding of the editor tree that [applyInlineStyle],
    [applyBlockFormat] and [toggleList] of [src/app.js] operate on, of the
    browser operations these functions call (ranges, [surroundContents],
    [extractContents], [insertNode], [replaceWith], [innerHTML]), and of the
    three functions themselves, followed by the properties of the
    formatting engine.  The pure utility and domain functions of the same
    file (pipelines, previews, date labels, sorting and filtering of notes)
    come after them, with their properties.

    The editor surface [#noteBody] is a tree of nodes.  A node reference is
    the path of child indices from [#noteBody] to the node; the empty path
    is [#noteBody] itself.  A selection is a DOM range: two boundary points,
    each a container and an offset into its text or child list. *)

From Stdlib Require Import String Ascii.
From stdpp Require Import base list strings pretty sorting.

Local Open Scope string_scope.
Local Open Scope list_scope.
Local Open Scope nat_scope.

#[local] Set Warnings "-register-all".

(** ** The node tree *)

(** [tagName] is stored as the DOM reports it: in upper case.  The tag of
    [#noteBody] itself is never read by the functions below. *)
Inductive Node : Type :=
  | Text (data : string)
  | Elem (tagName : string) (childNodes : list Node).

Definition path := list nat.

(** A boundary point of a range. *)
Definition Position : Type := (path * nat)%type.

Record Range : Type := mkRange {
  startContainer : path;
  startOffset : nat;
  endContainer : path;
  endOffset : nat
}.

(** What the functions read and mutate: the tree under [#noteBody] and the
    window selection ([None] when [selection.rangeCount] is 0). *)
Record State : Type := mkState {
  body : Node;
  selection : option Range
}.

(** ** Strings *)

(** [toUpperCase] on the letters of tag names (ASCII). *)
Definition upper_ascii (c : ascii) : ascii :=
  let n := nat_of_ascii c in
  if (97 <=? n) && (n <=? 122) then ascii_of_nat (n - 32) else c.

Fixpoint toUpperCase (s : string) : string :=
  match s with
  | EmptyString => EmptyString
  | String c r => String (upper_ascii c) (toUpperCase r)
  end.

(** The first [n] characters of [s], and [s] without them (the two halves
    that [splitText], [substringData] and [deleteData] are made of). *)
Fixpoint strTake (n : nat) (s : string) : string :=
  match n, s with
  | S n', String c r => String c (strTake n' r)
  | _, _ => EmptyString
  end.

Fixpoint strDrop (n : nat) (s : string) : string :=
  match n, s with
  | S n', String _ r => strDrop n' r
  | _, _ => s
  end.

(** ** Reading the tree *)

Definition children (n : Node) : list Node :=
  match n with
  | Text _ => []
  | Elem _ ch => ch
  end.

Definition isElement (n : Node) : bool :=
  match n with
  | Elem _ _ => true
  | Text _ => false
  end.

(** [node.textContent] *)
Fixpoint textContent (n : Node) : string :=
  match n with
  | Text s => s
  | Elem _ ch =>
      (fix go (l : list Node) : string :=
         match l with
         | [] => EmptyString
         | c :: r => textContent c +:+ go r
         end) ch
  end.

Definition textOfList (l : list Node) : string :=
  foldr (fun c acc => textContent c +:+ acc) EmptyString l.

(** The length of a node in the DOM sense: characters of a text node,
    children of an element. *)
Definition nodeLength (n : Node) : nat :=
  match n with
  | Text s => String.length s
  | Elem _ ch => length ch
  end.

(** [element.children.length]: element children only. *)
Definition childElementCount (n : Node) : nat :=
  length (filter (fun c => isElement c = true) (children n)).

Fixpoint getNode (p : path) (n : Node) : option Node :=
  match p with
  | [] => Some n
  | i :: p' =>
      match n with
      | Elem _ ch =>
          match ch !! i with
          | Some c => getNode p' c
          | None => None
          end
      | Text _ => None
      end
  end.

(** Rewrites the node at [p] with [f]; other nodes keep their place. *)
Fixpoint modify (p : path) (f : Node -> Node) (n : Node) : Node :=
  match p with
  | [] => f n
  | i :: p' =>
      match n with
      | Elem t ch => Elem t (alter (modify p' f) i ch)
      | Text _ => n
      end
  end.

(** [node.parentNode] and the index of a node among its siblings. *)
Definition parentPath (p : path) : path := removelast p.
Definition childIndex (p : path) : nat := List.last p 0.

(** Rewrites the child list of the element at [p]. *)
Definition modifyChildren (p : path) (f : list Node -> list Node) (n : Node) : Node :=
  modify p (fun e =>
    match e with
    | Elem t ch => Elem t (f ch)
    | Text _ => e
    end) n.

(** [old.replaceWith(new)] for the node at [p]; [#noteBody] itself is
    never replaced. *)
Definition replaceWith (p : path) (new : Node) (n : Node) : Node :=
  match p with
  | [] => n
  | _ => modifyChildren (parentPath p) (fun ch => <[childIndex p := new]> ch) n
  end.

(** ** Selection API utilities ([app.js], lines 66-117) *)

Definition getSelectionAndRange (st : State) : option Range := selection st.

Definition collapsed (r : Range) : bool :=
  bool_decide (startContainer r = endContainer r) && (startOffset r =? endOffset r).

Definition isRangeEmpty (r : Range) : bool := collapsed r.

Definition blockTags : list string :=
  ["P"; "DIV"; "H1"; "H2"; "H3"; "H4"; "H5"; "H6"; "BLOCKQUOTE"; "LI"].

Definition includes (l : list string) (s : string) : bool :=
  existsb (String.eqb s) l.

Definition isBlockElement (n : Node) : bool :=
  match n with
  | Elem t _ => includes blockTags t
  | Text _ => false
  end.

Fixpoint commonPrefix (p q : path) : path :=
  match p, q with
  | i :: p', j :: q' => if i =? j then i :: commonPrefix p' q' else []
  | _, _ => []
  end.

(** [range.commonAncestorContainer] *)
Definition commonAncestorContainer (r : Range) : path :=
  commonPrefix (startContainer r) (endContainer r).

(** The two loops of [findParentBlock].  [fuel] bounds the number of
    [parentNode] steps; one more than the length of the path is always
    enough, since every step shortens the path. *)
Fixpoint skipNonElements (fuel : nat) (root : Node) (current : path) : path :=
  match fuel with
  | 0 => current
  | S fuel' =>
      match getNode current root with
      | Some (Text _) => skipNonElements fuel' root (parentPath current)
      | _ => current
      end
  end.

Fixpoint climbToBlock (fuel : nat) (root : Node) (current : path) : option path :=
  match fuel with
  | 0 => None
  | S fuel' =>
      match current with
      | [] => None
      | _ =>
          match getNode current root with
          | Some n =>
              if isBlockElement n then Some current
              else climbToBlock fuel' root (parentPath current)
          | None => None
          end
      end
  end.

Definition findParentBlock (root : Node) (node : path) : option path :=
  let current := skipNonElements (S (length node)) root node in
  climbToBlock (S (length current)) root current.

(** The loop of [hasParentWithTag]: from the node upwards, stopping below
    [#noteBody]. *)
Fixpoint climbToTag (fuel : nat) (root : Node) (current : path) (TAG : string)
  : option path :=
  match fuel with
  | 0 => None
  | S fuel' =>
      match current with
      | [] => None
      | _ =>
          match getNode current root with
          | Some (Elem t _) =>
              if String.eqb t TAG then Some current
              else climbToTag fuel' root (parentPath current) TAG
          | _ => climbToTag fuel' root (parentPath current) TAG
          end
      end
  end.

Definition hasParentWithTag (root : Node) (node : path) (tagName : string)
  : option path :=
  climbToTag (S (length node)) root node (toUpperCase tagName).

(** [unwrapElement]: the children of the element at [p] move in front of
    it, one by one, and the element is removed.  Nothing is merged. *)
Definition unwrapElement (p : path) (root : Node) : Node :=
  match p with
  | [] => root
  | _ =>
      modifyChildren (parentPath p) (fun ch =>
        match ch !! childIndex p with
        | Some element => take (childIndex p) ch ++ children element ++ drop (S (childIndex p)) ch
        | None => ch
        end) root
  end.

(** ** Ranges: the browser operations the functions call *)

(** Cuts the subtree [n] at the boundary point [(p, o)] inside it: what
    lies before the point and what lies after it.  A text node is cut in
    its data, an element in its child list; the elements on the way down
    appear on both sides (one is the original, the other its clone). *)
Fixpoint splitAt (p : path) (o : nat) (n : Node) {struct p} : Node * Node :=
  match n with
  | Text s => (Text (strTake o s), Text (strDrop o s))
  | Elem t ch =>
      match p with
      | [] => (Elem t (take o ch), Elem t (drop o ch))
      | i :: p' =>
          match ch !! i with
          | Some c =>
              let '(l, r) := splitAt p' o c in
              (Elem t (take i ch ++ [l]), Elem t (r :: drop (S i) ch))
          | None => (n, Elem t [])
          end
      end
  end.

(** The start of a range inside the element that is its common ancestor:
    the children kept before the range, the clone of the partially
    contained child (if the start lies in one), and the index of the first
    wholly contained child. *)
Definition startSide (ch : list Node) (sp : path) (so : nat)
  : list Node * list Node * nat :=
  match sp with
  | [] => (take so ch, [], so)
  | i :: r =>
      match ch !! i with
      | Some c => let '(k, x) := splitAt r so c in (take i ch ++ [k], [x], S i)
      | None => (take i ch, [], i)
      end
  end.

(** The end of the range: the clone of the partially contained child, the
    children kept after the range, and the index after the last wholly
    contained child. *)
Definition endSide (ch : list Node) (ep : path) (eo : nat)
  : list Node * list Node * nat :=
  match ep with
  | [] => ([], drop eo ch, eo)
  | j :: r =>
      match ch !! j with
      | Some c => let '(x, k) := splitAt r eo c in ([x], k :: drop (S j) ch, j)
      | None => ([], drop j ch, j)
      end
  end.

(** The extraction of a range inside its common ancestor [n]; the boundary
    containers are given relative to [n].  Returns the fragment, what is
    left of [n], and the offset in [n] where the range collapses to. *)
Definition extractFrom (n : Node) (sp : path) (so : nat) (ep : path) (eo : nat)
  : list Node * Node * nat :=
  match n with
  | Text s =>
      ([Text (strTake (eo - so) (strDrop so s))],
       Text (strTake so s +:+ strDrop eo s), so)
  | Elem t ch =>
      let '(keptL, fragL, lo) := startSide ch sp so in
      let '(fragR, keptR, hi) := endSide ch ep eo in
      (fragL ++ take (hi - lo) (drop lo ch) ++ fragR, Elem t (keptL ++ keptR), length keptL)
  end.

(** [range.extractContents()]: the fragment, the tree afterwards, and the
    point the range has collapsed to. *)
Definition extractContents (root : Node) (r : Range) : list Node * Node * Position :=
  if collapsed r then ([], root, (startContainer r, startOffset r))
  else
    let c := commonAncestorContainer r in
    match getNode c root with
    | Some n =>
        let '(frag, n', k) :=
          extractFrom n (drop (length c) (startContainer r)) (startOffset r)
                        (drop (length c) (endContainer r)) (endOffset r) in
        (frag, modify c (fun _ => n') root, (c, k))
    | None => ([], root, (startContainer r, startOffset r))
    end.

(** [range.deleteContents()] leaves the same tree and the same collapsed
    range as the extraction; the removed nodes are dropped. *)
Definition deleteContents (root : Node) (r : Range) : Node * Position :=
  let '(_, root', pos) := extractContents root r in (root', pos).

(** [range.toString()]: the text inside the range. *)
Definition toString (root : Node) (r : Range) : string :=
  let '(frag, _, _) := extractContents root r in textOfList frag.

(** [range.insertNode(new)] for a collapsed range at [pos]: a text
    container is split at the offset.  Returns the tree and the place of
    the inserted node. *)
Definition insertNode (root : Node) (pos : Position) (new : Node) : Node * path :=
  let '(p, o) := pos in
  match getNode p root with
  | Some (Text s) =>
      match p with
      | [] => (root, p)
      | _ =>
          (modifyChildren (parentPath p) (fun ch =>
             take (childIndex p) ch
             ++ [Text (strTake o s); new; Text (strDrop o s)]
             ++ drop (S (childIndex p)) ch) root,
           parentPath p ++ [S (childIndex p)])
      end
  | Some (Elem _ _) =>
      (modifyChildren p (fun ch => take o ch ++ new :: drop o ch) root, p ++ [o])
  | None => (root, p)
  end.

(** Is the boundary container, given relative to the common ancestor, the
    ancestor itself or a text child of it?  Otherwise an element is
    partially contained in the range. *)
Definition boundaryInText (n : Node) (rel : path) : bool :=
  match rel with
  | [] => true
  | [i] =>
      match children n !! i with
      | Some (Text _) => true
      | _ => false
      end
  | _ => false
  end.

Definition partiallyContainsElement (root : Node) (r : Range) : bool :=
  let c := commonAncestorContainer r in
  match getNode c root with
  | Some n =>
      negb (boundaryInText n (drop (length c) (startContainer r))
            && boundaryInText n (drop (length c) (endContainer r)))
  | None => true
  end.

(** The range contents move into a new [tagName] element put at the start
    of the range. *)
Definition wrapContents (root : Node) (r : Range) (tagName : string) : Node * path :=
  let '(frag, root', pos) := extractContents root r in
  insertNode root' pos (Elem (toUpperCase tagName) frag).

(** [range.surroundContents(wrapper)] throws, before it changes anything,
    when the range partially contains a node that is not a text node; then
    there is no result.  Otherwise the tree it leaves is that of
    [wrapContents]. *)
Definition surroundContents (root : Node) (r : Range) (tagName : string)
  : option (Node * path) :=
  if partiallyContainsElement root r then None
  else Some (wrapContents root r tagName).

(** Boundary points in tree order: is [(p, o)] at or before [(q, o')]? *)
Fixpoint pointLe (p : path) (o : nat) (q : path) (o' : nat) : bool :=
  match p, q with
  | [], [] => o <=? o'
  | [], j :: _ => o <=? j
  | i :: _, [] => i <? o'
  | i :: p', j :: q' => if i =? j then pointLe p' o q' o' else i <? j
  end.

Definition validPoint (root : Node) (p : path) (o : nat) : bool :=
  match getNode p root with
  | Some n => o <=? nodeLength n
  | None => false
  end.

(** What every range of the editor satisfies: its boundary points are in
    the tree under [#noteBody], within the length of their containers, and
    the start does not come after the end. *)
Definition validRange (root : Node) (r : Range) : bool :=
  isElement root
  && validPoint root (startContainer r) (startOffset r)
  && validPoint root (endContainer r) (endOffset r)
  && pointLe (startContainer r) (startOffset r) (endContainer r) (endOffset r).

(** [range.selectNodeContents(node)] and [range.collapse(false)]. *)
Definition selectNodeContents (root : Node) (p : path) : Range :=
  mkRange p 0 p (from_option nodeLength 0 (getNode p root)).

Definition collapseToEnd (r : Range) : Range :=
  mkRange (endContainer r) (endOffset r) (endContainer r) (endOffset r).

(** ** Trees up to the merging of text nodes *)

(** [node.normalize()]: at every depth, empty text nodes are removed and
    text nodes side by side become one.  Two trees with the same normal
    form are equal up to the merging of text nodes. *)
Definition consText (s : string) (acc : list Node) : list Node :=
  match acc with
  | Text s' :: r => Text (s +:+ s') :: r
  | _ => if String.eqb s "" then acc else Text s :: acc
  end.

Definition consNode (n : Node) (acc : list Node) : list Node :=
  match n with
  | Text s => consText s acc
  | Elem _ _ => n :: acc
  end.

Fixpoint normalize (n : Node) : Node :=
  match n with
  | Text s => Text s
  | Elem t ch =>
      Elem t ((fix go (l : list Node) : list Node :=
                 match l with
                 | [] => []
                 | c :: r => consNode (normalize c) (go r)
                 end) ch)
  end.

Definition normalizeList (ch : list Node) : list Node :=
  foldr (fun c acc => consNode (normalize c) acc) [] ch.


(** ** The formatting functions ([app.js], lines 119-278) *)

(** The first child of [parent] that is a text node with the given data
    (the loop that restores the selection after an unwrap). *)
Fixpoint findTextChild (ch : list Node) (textContent : string) : option nat :=
  match ch with
  | [] => None
  | Text s :: r =>
      if String.eqb s textContent then Some 0
      else S <$> findTextChild r textContent
  | Elem _ _ :: r => S <$> findTextChild r textContent
  end.

(** The test [existingStyle && range.toString() === existingStyle.textContent]:
    the element to unwrap, if any. *)
Definition exactlyCovered (root : Node) (range : Range) (existingStyle : option path)
  : option path :=
  match existingStyle with
  | Some e =>
      if String.eqb (toString root range)
                    (textContent (default (Text "") (getNode e root)))
      then Some e else None
  | None => None
  end.

(** The branch that removes the style ("Retirer le style"). *)
Definition removeStyle (e : path) (st : State) : State :=
  let root := body st in
  let element := default (Text "") (getNode e root) in
  let parent := parentPath e in
  let root' := unwrapElement e root in
  match findTextChild (from_option children [] (getNode parent root'))
                      (textContent element) with
  | Some i => mkState root' (Some (selectNodeContents root' (parent ++ [i])))
  | None =>
      (* no range is set: the live range has followed the moved children
         and the removed element, and sits collapsed where the element was *)
      let at_ := childIndex e + length (children element) in
      mkState root' (Some (mkRange parent at_ parent at_))
  end.

(** The branch that applies the style ("Appliquer le style"):
    [surroundContents], and [extractContents] / [appendChild] /
    [insertNode] when it throws. *)
Definition applyStyle (tagName : string) (range : Range) (st : State) : State :=
  let root := body st in
  let '(root', wrapper) :=
    match surroundContents root range tagName with
    | Some done => done
    | None => wrapContents root range tagName
    end in
  mkState root' (Some (selectNodeContents root' wrapper)).

Definition applyInlineStyle (tagName : string) (st : State) : State :=
  match getSelectionAndRange st with
  | None => st
  | Some range =>
      if isRangeEmpty range then st
      else
        let root := body st in
        let existingStyle :=
          hasParentWithTag root (commonAncestorContainer range) tagName in
        match exactlyCovered root range existingStyle with
        | Some e => removeStyle e st
        | None => applyStyle tagName range st
        end
  end.

Section Formatting.

(** What assigning a string to [innerHTML] yields: the assignment
    [element.innerHTML = markup], for an element with the tag [tagName],
    gives the element the children [parseHTML tagName markup], the nodes
    that the HTML parser reads from the markup in the context of such an
    element. *)
Variable parseHTML : string -> string -> list Node.

(** What reading [innerHTML] yields: the markup that the browser writes
    for the children of an element.  The elements read here are blocks
    and list items, for all of which the markup is written in the same
    way.  [target.innerHTML = source.innerHTML] gives a target with the
    tag [T] the nodes [parseHTML T (innerHTML children)]; nothing is
    assumed of the two browser functions, so these nodes need not be the
    children that were written out. *)
Variable innerHTML : list Node -> string.

Definition orBr (text : string) : string :=
  if String.eqb text "" then "<br>" else text.

Definition applyBlockFormat (tagName : string) (st : State) : State :=
  match getSelectionAndRange st with
  | None => st
  | Some range =>
      let root := body st in
      match findParentBlock root (commonAncestorContainer range) with
      | None =>
          let newBlock :=
            Elem (toUpperCase tagName)
                 (parseHTML (toUpperCase tagName) (orBr (toString root range))) in
          let '(root1, pos) := deleteContents root range in
          let '(root2, placed) := insertNode root1 pos newBlock in
          mkState root2 (Some (collapseToEnd (selectNodeContents root2 placed)))
      | Some b =>
          match getNode b root with
          | Some (Elem t ch) =>
              let newTagName :=
                if String.eqb t (toUpperCase tagName) then "p" else tagName in
              let newBlock :=
                Elem (toUpperCase newTagName)
                     (parseHTML (toUpperCase newTagName) (innerHTML ch)) in
              let root' := replaceWith b newBlock root in
              mkState root' (Some (collapseToEnd (selectNodeContents root' b)))
          | _ => st
          end
      end
  end.

(** The branch of [toggleList] taken inside a list ("Retirer de la
    liste"), given the list found. *)
Definition removeFromList (existingList : path) (range : Range) (st : State) : State :=
  let root := body st in
  match hasParentWithTag root (commonAncestorContainer range) "LI" with
  | Some li =>
      let p :=
        Elem "P" (parseHTML "P" (innerHTML (from_option children [] (getNode li root)))) in
      let replaced :=
        if childElementCount (default (Text "") (getNode existingList root)) =? 1
        then existingList else li in
      let root' := replaceWith replaced p root in
      mkState root' (Some (collapseToEnd (selectNodeContents root' replaced)))
  | None => st
  end.

(** The branch taken outside of any list ("Créer une liste"). *)
Definition createList (listType : string) (range : Range) (st : State) : State :=
  let root := body st in
  let block := findParentBlock root (commonAncestorContainer range) in
  let fromText :=
    let li := Elem "LI" (parseHTML "LI" (orBr (toString root range))) in
    let list := Elem (toUpperCase listType) [li] in
    let '(root1, pos) := deleteContents root range in
    let '(root2, placed) := insertNode root1 pos list in
    mkState root2 (Some (collapseToEnd (selectNodeContents root2 (placed ++ [0])))) in
  match block with
  | Some b =>
      if from_option isBlockElement false (getNode b root) then
        let li :=
          Elem "LI"
               (parseHTML "LI" (innerHTML (from_option children [] (getNode b root)))) in
        let list := Elem (toUpperCase listType) [li] in
        let root' := replaceWith b list root in
        mkState root' (Some (collapseToEnd (selectNodeContents root' (b ++ [0]))))
      else fromText
  | None => fromText
  end.

(** [hasParentWithTag(node, 'UL') || hasParentWithTag(node, 'OL')] *)
Definition findList (root : Node) (node : path) : option path :=
  match hasParentWithTag root node "UL" with
  | Some l => Some l
  | None => hasParentWithTag root node "OL"
  end.

Definition toggleList (listType : string) (st : State) : State :=
  match getSelectionAndRange st with
  | None => st
  | Some range =>
      let existingList := findList (body st) (commonAncestorContainer range) in
      match existingList with
      | Some l => removeFromList l range st
      | None => createList listType range st
      end
  end.




End Formatting.

(** A reader for the strings that hold no markup (no [<], no [&], no
    carriage return), the same in every element: [<br>] is a line break,
    any other string one text node.  It stands for [parseHTML] in the
    examples, none of which depends on more. *)
Definition parsePlain (tagName s : string) : list Node :=
  if String.eqb s "<br>" then [Elem "BR" []]
  else if String.eqb s "" then []
  else [Text s].

(** The markup of children that are all text nodes holding none of the
    characters [&], [<], [>] and no-break space: their data, one after the
    other.  It stands for [innerHTML] in the examples, where every element
    whose markup is copied has such children. *)
Definition plainMarkup (ch : list Node) : string := textOfList ch.

(** The tag of the block that [applyBlockFormat] puts in place of a block
    tagged [t]. *)
Definition toggledTag (t tagName : string) : string :=
  if String.eqb t (toUpperCase tagName) then "P" else toUpperCase tagName.

(** ** Example trees *)

Definition editor (ch : list Node) : Node := Elem "DIV" ch.


(** A list of three items, the cursor in the second. *)
Definition listABC : Node :=
  editor [Elem "UL" [Elem "LI" [Text "A"]; Elem "LI" [Text "B"]; Elem "LI" [Text "C"]]].
Definition cursorInB : State := mkState listABC (Some (mkRange [0; 1; 0] 1 [0; 1; 0] 1)).

(** A list of one item, the cursor in it; and the same list with the item
    itself selected from the list (no [LI] above the range). *)
Definition listA : Node := editor [Elem "UL" [Elem "LI" [Text "A"]]].
Definition cursorInA : State := mkState listA (Some (mkRange [0; 0; 0] 1 [0; 0; 0] 1)).
Definition itemSelected : State := mkState listA (Some (mkRange [0] 0 [0] 1)).

(** One paragraph, "hello" selected. *)
Definition helloWorld : State :=
  mkState (editor [Elem "P" [Text "hello world"]]) (Some (mkRange [0; 0] 0 [0; 0] 5)).


(** A bold run after a plain one, the bold text selected; and what bold
    leaves of it: two text nodes side by side, the second selected. *)
Definition plainThenBold : State :=
  mkState (editor [Elem "P" [Text "a"; Elem "STRONG" [Text "b"]]])
          (Some (mkRange [0; 1; 0] 0 [0; 1; 0] 1)).
Definition twoTexts : State :=
  mkState (editor [Elem "P" [Text "a"; Text "b"]]) (Some (mkRange [0; 1] 0 [0; 1] 1)).




(** A selection that starts in plain text and ends inside an [EM]. *)
Definition acrossEm : State :=
  mkState (editor [Elem "P" [Text "a"; Elem "EM" [Text "bc"]; Text "d"]])
          (Some (mkRange [0; 0] 0 [0; 1; 0] 1)).

(** ** The structure of a document *)

Definition isListTag (t : string) : bool := String.eqb t "UL" || String.eqb t "OL".


















Section Cases.

Variable parseHTML : string -> string -> list Node.

Variable innerHTML : list Node -> string.









End Cases.

(** Two paragraphs, the first with the characters of a tag in its text,
    selected from the start of the first into the second. *)
Definition markupInText : State :=
  mkState (editor [Elem "P" [Text "a<b>c"]; Elem "P" [Text "d"]])
          (Some (mkRange [0; 0] 0 [1; 0] 1)).

(** An ordered list of two items inside the one item of an unordered
    list, the cursor in the first inner item. *)
Definition nestedLists : State :=
  mkState (editor [Elem "UL" [Elem "LI" [Elem "OL" [Elem "LI" [Text "x"];
                                                    Elem "LI" [Text "z"]]]]])
          (Some (mkRange [0; 0; 0; 0; 0] 1 [0; 0; 0; 0; 0] 1)).

(** * Further definitions *)

(** Is the node at [q] a block element? *)
Definition blockAt (root : Node) (q : path) : bool :=
  from_option isBlockElement false (getNode q root).

(** A text node inside a [STRONG] inside a paragraph of a blockquote. *)
Definition quotedBold : Node :=
  editor [Elem "BLOCKQUOTE" [Elem "P" [Text "a"; Elem "STRONG" [Text "b"]]]].

(** Two places of the tree neither of which lies inside the other. *)
Fixpoint diverge (p q : path) : bool :=
  match p, q with
  | i :: p', j :: q' => if i =? j then diverge p' q' else true
  | _, _ => false
  end.

(** A heading followed by a paragraph, the cursor in the heading. *)
Definition headingAndParagraph : State :=
  mkState (editor [Elem "H2" [Text "title"]; Elem "P" [Text "body"]])
          (Some (mkRange [0; 0] 2 [0; 0] 2)).

(** A heading with the cursor in it, outside of any list. *)
Definition cursorInHeading : State :=
  mkState (editor [Elem "H2" [Text "title"]]) (Some (mkRange [0; 0] 2 [0; 0] 2)).

(** A paragraph inside a blockquote, the cursor in the paragraph. *)
Definition cursorInParagraph : State :=
  mkState (editor [Elem "BLOCKQUOTE" [Elem "P" [Text "one"]]])
          (Some (mkRange [0; 0; 0] 1 [0; 0; 0] 1)).


(** A list of two items, the second of which holds a list of one item;
    the cursor in that inner item. *)
Definition innerSingle : State :=
  mkState (editor [Elem "UL" [Elem "LI" [Text "a"];
                              Elem "LI" [Elem "OL" [Elem "LI" [Text "x"]]]]])
          (Some (mkRange [0; 1; 0; 0; 0] 1 [0; 1; 0; 0; 0] 1)).

(** * The utility and domain functions of [app.js] *)

(** ** [pipe] and [compose], for functions from one type to itself *)

Section Pipelines.

Context {A : Type}.

(** [fns.reduce((v, f) => f(v), x)] *)
Definition pipe (fns : list (A -> A)) (x : A) : A :=
  foldl (fun v f => f v) x fns.


End Pipelines.

(** ** Texts and previews *)

(** [a || b] on strings: the empty string is the falsy one. *)
Definition orString (a b : string) : string :=
  match a with
  | EmptyString => b
  | _ => a
  end.

(** [text.length > maxLength ? `${text.substring(0, maxLength)}...` : text],
    for a [maxLength] that is a natural number. *)
Definition truncateText (text : string) (maxLength : nat) : string :=
  if maxLength <? String.length text then strTake maxLength text +:+ "..."
  else text.

Section Previews.

Variable parseHTML : string -> list Node.

(** [innerText] of an element that is not rendered, as the detached [div]
    of [extractTextFromHTML], is its [textContent]. *)
Definition innerText (n : Node) : string := textContent n.

Definition extractTextFromHTML (html : string) : string :=
  let div := Elem "DIV" (parseHTML html) in
  orString (orString (textContent div) (innerText div)) "".

Definition createPreview (html : string) : string :=
  pipe [extractTextFromHTML; fun text => truncateText text 100] html.

End Previews.

(** ** Dates *)

(** The capital A with grave accent is one UTF-16 unit; it is written here
    as the one character of that code. *)
Definition justNow : string := String "192"%char " l'instant".

Section Dates.

(** [date.toLocaleDateString('fr-FR', { day: 'numeric', month: 'short' })]
    for a valid date. *)
Variable toLocaleDateString : Z -> string.

(** A time value: a whole number of milliseconds of magnitude at most
    8.64e15.  [new Date(t)] is an invalid date for any other number. *)
Definition validTime (t : Z) : bool := (Z.abs t <=? 8640000000000000)%Z.

(** [formatDate], with the reading of the clock ([new Date()], a time
    value) as an argument; timestamps are whole numbers of milliseconds,
    as [Date.now] gives them.  For an invalid date the difference is
    [NaN], every comparison fails, and [toLocaleDateString] gives
    ["Invalid Date"].  For time values the subtraction and the floored
    divisions are those of whole numbers: the rounding of the
    floating-point operations changes no comparison and no count that
    is shown. *)
Definition formatDate (now timestamp : Z) : string :=
  if validTime timestamp then
    let diffMs := (now - timestamp)%Z in
    let diffMins := (diffMs / 60000)%Z in
    let diffHours := (diffMs / 3600000)%Z in
    let diffDays := (diffMs / 86400000)%Z in
    if (diffMins <? 1)%Z then justNow
    else if (diffMins <? 60)%Z then "Il y a " +:+ pretty diffMins +:+ " min"
    else if (diffHours <? 24)%Z then "Il y a " +:+ pretty diffHours +:+ "h"
    else if (diffDays <? 7)%Z then "Il y a " +:+ pretty diffDays +:+ "j"
    else toLocaleDateString timestamp
  else "Invalid Date".

End Dates.

(** ** Notes and folders *)

Module Note.

Record t : Type := mk {
  id : string;
  title : string;
  content : string;
  folderId : option string;
  created : Z;
  modified : Z
}.

End Note.

Module Folder.

Record t : Type := mk {
  id : string;
  name : string;
  category : string;
  created : Z
}.

End Folder.

Record AppState : Type := mkAppState {
  currentNote : option Note.t;
  currentFolder : option Folder.t;
  notes : list Note.t;
  folders : list Folder.t;
  searchQuery : string;
  sortBy : string
}.

(** ** Sorting *)

(** [Array.prototype.sort] with a comparator: the result is stable, and for
    a comparator that orders the elements consistently it is the one sorted
    arrangement in which equal elements keep their order.  A stable
    insertion sort computes it: an element goes in front of the first
    element that the comparator does not put before it. *)
Section Sort.

Context {A : Type}.

Variable compareFn : A -> A -> Z.

Fixpoint insertSorted (x : A) (l : list A) : list A :=
  match l with
  | [] => [x]
  | y :: l' =>
      if (compareFn x y <=? 0)%Z then x :: l else y :: insertSorted x l'
  end.

Definition sort (l : list A) : list A := foldr insertSorted [] l.

(** [x] may stand before [y]. *)
Definition inOrder (x y : A) : Prop := (compareFn x y <= 0)%Z.

End Sort.

(** The comparator [(a, b) => key(b) - key(a)]: largest key first. *)
Definition descending {A : Type} (key : A -> Z) (a b : A) : Z := (key b - key a)%Z.

Definition byModified (a b : Note.t) : Z := (Note.modified b - Note.modified a)%Z.

Definition byCreated (a b : Note.t) : Z := (Note.created b - Note.created a)%Z.

Definition sortNotesByModified (notes : list Note.t) : list Note.t :=
  sort byModified notes.

Definition sortNotesByCreated (notes : list Note.t) : list Note.t :=
  sort byCreated notes.

(** Truthiness of a value that is [null] or a string. *)
Definition truthy (v : option string) : bool :=
  match v with
  | Some (String _ _) => true
  | _ => false
  end.

Definition filterNotesByFolder (folderId : option string) (notes : list Note.t)
  : list Note.t :=
  if truthy folderId then filter (fun note => Note.folderId note = folderId) notes
  else notes.

(** [String.prototype.includes] *)
Fixpoint includesString (s searchString : string) : bool :=
  String.prefix searchString s
  || match s with
     | EmptyString => false
     | String _ s' => includesString s' searchString
     end.

Section Listing.

Variable parseHTML : string -> list Node.

(** [String.prototype.toLowerCase] and [String.prototype.localeCompare]
    follow the Unicode tables and the locale of the browser. *)
Variable toLowerCase : string -> string.

Variable localeCompare : string -> string -> Z.

Definition byTitle (a b : Note.t) : Z := localeCompare (Note.title a) (Note.title b).

Definition sortNotesByTitle (notes : list Note.t) : list Note.t :=
  sort byTitle notes.

(** The test of [searchNotes] on one note. *)
Definition matchesQuery (lowerQuery : string) (note : Note.t) : bool :=
  includesString (toLowerCase (Note.title note)) lowerQuery
  || includesString (toLowerCase (extractTextFromHTML parseHTML (Note.content note)))
                    lowerQuery.

Definition searchNotes (query : string) (notes : list Note.t) : list Note.t :=
  let lowerQuery := toLowerCase query in
  filter (fun note => matchesQuery lowerQuery note = true) notes.

Definition getFilteredAndSortedNotes (appState : AppState) : list Note.t :=
  let notes0 := notes appState in
  let notes1 :=
    match currentFolder appState with
    | Some folder => filterNotesByFolder (Some (Folder.id folder)) notes0
    | None => notes0
    end in
  let notes2 :=
    if truthy (Some (searchQuery appState))
    then searchNotes (searchQuery appState) notes1 else notes1 in
  if String.eqb (sortBy appState) "created" then sortNotesByCreated notes2
  else if String.eqb (sortBy appState) "title" then sortNotesByTitle notes2
  else sortNotesByModified notes2.

End Listing.

(** The notes that [getFilteredAndSortedNotes] is to show: those of the
    current folder, when there is one, that match the query, when there is
    one. *)
Definition inCurrentFolder (appState : AppState) (note : Note.t) : Prop :=
  match currentFolder appState with
  | Some folder =>
      truthy (Some (Folder.id folder)) = true ->
      Note.folderId note = Some (Folder.id folder)
  | None => True
  end.

Definition sortedNotes : list Note.t :=
  [Note.mk "b" "Beta" "" None 20 70;
   Note.mk "a" "Alpha" "<p>x</p>" (Some "f1") 10 50;
   Note.mk "c" "Gamma" "" (Some "f1") 30 50].
(** * Properties *)

(** ** Paths and tree updates *)

Lemma Node_induction (P : Node -> Prop) :
  (forall s, P (Text s)) ->
  (forall t ch, Forall P ch -> P (Elem t ch)) ->
  forall n, P n.
Proof.
  intros HT HE. fix IH 1. intros [s | t ch].
  - apply HT.
  - apply HE. induction ch as [| c r IHr]; constructor; [apply IH | exact IHr].
Qed.

Lemma parentPath_snoc (p : path) (i : nat) : parentPath (p ++ [i]) = p.
Proof. unfold parentPath. apply removelast_last. Qed.

Lemma childIndex_snoc (p : path) (i : nat) : childIndex (p ++ [i]) = i.
Proof. unfold childIndex. apply List.last_last. Qed.

Lemma path_snoc (p : path) : p <> [] -> p = parentPath p ++ [childIndex p].
Proof. intros H. unfold parentPath, childIndex. by apply app_removelast_last. Qed.

Lemma parentPath_length (p : path) : p <> [] -> S (length (parentPath p)) = length p.
Proof.
  intros H. rewrite (path_snoc p H) at 2. rewrite length_app. simpl. lia.
Qed.

Lemma getNode_app (p q : path) (n : Node) :
  getNode (p ++ q) n = getNode p n ≫= getNode q.
Proof.
  revert n. induction p as [| i p IH]; intros n; simpl; [done |].
  destruct n as [s | t ch]; [done |].
  destruct (ch !! i); [apply IH | done].
Qed.

Lemma getNode_snoc (p : path) (i : nat) (root : Node) (t : string) (ch : list Node) :
  getNode p root = Some (Elem t ch) -> getNode (p ++ [i]) root = ch !! i.
Proof.
  intros H. rewrite getNode_app, H. simpl. by destruct (ch !! i).
Qed.

Lemma getNode_modify (p : path) (f : Node -> Node) (root n : Node) :
  getNode p root = Some n -> getNode p (modify p f root) = Some (f n).
Proof.
  revert root. induction p as [| i p IH]; intros root; simpl.
  - by intros [= ->].
  - destruct root as [s | t ch]; [done |].
    destruct (ch !! i) as [c |] eqn:E; [| done]. intros H.
    rewrite list_lookup_alter_eq, E. simpl. by apply IH.
Qed.

Lemma modify_modify (p : path) (f g : Node -> Node) (root : Node) :
  modify p g (modify p f root) = modify p (fun n => g (f n)) root.
Proof.
  revert root. induction p as [| i p IH]; intros root; simpl; [done |].
  destruct root as [s | t ch]; [done |]. f_equal.
  rewrite list_alter_alter_eq. apply list_alter_ext; [| done].
  intros c _. apply IH.
Qed.

Lemma modify_ext (p : path) (f g : Node -> Node) (root n : Node) :
  getNode p root = Some n -> f n = g n -> modify p f root = modify p g root.
Proof.
  revert root. induction p as [| i p IH]; intros root; simpl.
  - by intros [= ->].
  - destruct root as [s | t ch]; [done |].
    destruct (ch !! i) as [c |] eqn:E; [| done]. intros H Hfg. f_equal.
    apply list_alter_ext; [| done]. intros c' Hc'. 
    assert (c' = c) as -> by congruence. by apply IH.
Qed.

Lemma modifyChildren_get (p : path) (f : list Node -> list Node) (root : Node)
    (t : string) (ch : list Node) :
  getNode p root = Some (Elem t ch) ->
  getNode p (modifyChildren p f root) = Some (Elem t (f ch)).
Proof. intros H. unfold modifyChildren. by rewrite (getNode_modify _ _ _ _ H). Qed.

Lemma getNode_snoc_inv (p : path) (i : nat) (root x : Node) :
  getNode (p ++ [i]) root = Some x ->
  exists t ch, getNode p root = Some (Elem t ch) /\ ch !! i = Some x.
Proof.
  rewrite getNode_app. destruct (getNode p root) as [[s | t ch] |]; simpl; try done.
  destruct (ch !! i) as [c |] eqn:E; [| done]. intros [= ->]. by exists t, ch.
Qed.

Lemma replaceWith_snoc (p : path) (i : nat) (new root : Node) :
  replaceWith (p ++ [i]) new root = modifyChildren p (fun ch => <[i := new]> ch) root.
Proof.
  unfold replaceWith. rewrite parentPath_snoc, childIndex_snoc.
  by destruct p.
Qed.

Lemma replaceWith_parent (p : path) (i : nat) (new root : Node)
    (t : string) (ch : list Node) :
  getNode p root = Some (Elem t ch) ->
  getNode p (replaceWith (p ++ [i]) new root) = Some (Elem t (<[i := new]> ch)).
Proof. intros H. rewrite replaceWith_snoc. by apply modifyChildren_get. Qed.

Lemma replaceWith_get (p : path) (new root : Node) :
  p <> [] -> is_Some (getNode p root) ->
  getNode p (replaceWith p new root) = Some new.
Proof.
  intros Hp [x Hx]. rewrite (path_snoc p Hp) in Hx |- *.
  destruct (getNode_snoc_inv _ _ _ _ Hx) as (t & ch & Hpp & Hi).
  rewrite (getNode_snoc _ _ _ t (<[childIndex p := new]> ch)).
  - apply list_lookup_insert_eq. by eapply lookup_lt_Some.
  - by apply replaceWith_parent.
Qed.

(** ** What the upward searches return *)

Lemma climbToTag_Some (fuel : nat) (root : Node) (current q : path) (TAG : string) :
  climbToTag fuel root current TAG = Some q ->
  q <> [] /\ (exists r, current = q ++ r) /\
  exists ch, getNode q root = Some (Elem TAG ch).
Proof.
  revert current. induction fuel as [| fuel IH]; intros current; simpl; [done |].
  destruct current as [| i p]; [done |].
  set (cur := i :: p).
  assert (Hup : climbToTag fuel root (parentPath cur) TAG = Some q ->
                q <> [] /\ (exists r, cur = q ++ r) /\
                exists ch, getNode q root = Some (Elem TAG ch)).
  { intros H. destruct (IH _ H) as (Hq & [r Hr] & Hch). split; [done |]. split; [| done].
    exists (r ++ [childIndex cur]). rewrite app_assoc, <- Hr.
    by apply path_snoc. }
  destruct (getNode cur root) as [[s | t ch] |] eqn:E; try exact Hup.
  destruct (String.eqb t TAG) eqn:Et; [| exact Hup].
  intros [= <-]. apply String.eqb_eq in Et as ->.
  split; [done |]. split; [exists []; by rewrite app_nil_r | by exists ch].
Qed.

Lemma hasParentWithTag_Some (root : Node) (node q : path) (tagName : string) :
  hasParentWithTag root node tagName = Some q ->
  q <> [] /\ (exists r, node = q ++ r) /\
  exists ch, getNode q root = Some (Elem (toUpperCase tagName) ch).
Proof. apply climbToTag_Some. Qed.

Lemma findList_Some (root : Node) (node l : path) :
  findList root node = Some l ->
  l <> [] /\ (exists r, node = l ++ r) /\
  exists t ch, getNode l root = Some (Elem t ch) /\ (t = "UL" \/ t = "OL").
Proof.
  unfold findList.
  destruct (hasParentWithTag root node "UL") as [u |] eqn:E.
  - intros [= <-]. destruct (hasParentWithTag_Some _ _ _ _ E) as (? & ? & ch & ?).
    split; [done |]. split; [done |]. exists "UL", ch. auto.
  - intros H. destruct (hasParentWithTag_Some _ _ _ _ H) as (? & ? & ch & ?).
    split; [done |]. split; [done |]. exists "OL", ch. auto.
Qed.

(** ** Strings *)

Lemma str_app_cons (c : ascii) (s t : string) : String c s +:+ t = String c (s +:+ t).
Proof. reflexivity. Qed.

Lemma str_app_nil_l (s : string) : "" +:+ s = s.
Proof. reflexivity. Qed.

Lemma str_app_nil_r (s : string) : s +:+ "" = s.
Proof. induction s as [| c s IH]; [done | by rewrite str_app_cons, IH]. Qed.

Lemma str_app_assoc (a b c : string) : (a +:+ b) +:+ c = a +:+ (b +:+ c).
Proof. induction a as [| x a IH]; [done | by rewrite !str_app_cons, IH]. Qed.


Lemma strTake_strDrop (n : nat) (s : string) : strTake n s +:+ strDrop n s = s.
Proof.
  revert s. induction n as [| n IH]; intros [| c s]; simpl; try done.
  by rewrite str_app_cons, IH.
Qed.

Lemma strDrop_strDrop (n m : nat) (s : string) :
  strDrop m (strDrop n s) = strDrop (n + m) s.
Proof.
  revert s. induction n as [| n IH]; intros s; simpl; [done |].
  destruct s as [| c s]; simpl; [by destruct m | apply IH].
Qed.

Lemma str_length_app (a b : string) :
  String.length (a +:+ b) = String.length a + String.length b.
Proof. induction a as [| c a IH]; [done |]. rewrite str_app_cons. simpl. by rewrite IH. Qed.

Lemma strTake_length (n : nat) (s : string) :
  String.length (strTake n s) = n `min` String.length s.
Proof.
  revert s. induction n as [| n IH]; intros [| c s]; simpl; try done.
  by rewrite IH.
Qed.



(** ** Text content and the merging of text nodes *)

Lemma textContent_Elem (t : string) (ch : list Node) :
  textContent (Elem t ch) = textOfList ch.
Proof. reflexivity. Qed.

Lemma normalize_Elem (t : string) (ch : list Node) :
  normalize (Elem t ch) = Elem t (normalizeList ch).
Proof. reflexivity. Qed.

Lemma normalizeList_cons (c : Node) (r : list Node) :
  normalizeList (c :: r) = consNode (normalize c) (normalizeList r).
Proof. reflexivity. Qed.

Lemma consText_text (s : string) (acc : list Node) :
  textOfList (consText s acc) = s +:+ textOfList acc.
Proof.
  unfold consText. destruct acc as [| [s' | t ch] r]; simpl.
  - destruct (String.eqb_spec s "") as [-> | _]; [done | reflexivity].
  - unfold textOfList. simpl. by rewrite str_app_assoc.
  - destruct (String.eqb_spec s "") as [-> | _]; [done | reflexivity].
Qed.

Lemma consNode_text (n : Node) (acc : list Node) :
  textOfList (consNode n acc) = textContent n +:+ textOfList acc.
Proof. destruct n; [apply consText_text | reflexivity]. Qed.

Lemma normalize_text (n : Node) : textContent (normalize n) = textContent n.
Proof.
  induction n as [s | t ch IH] using Node_induction; [done |].
  rewrite normalize_Elem, !textContent_Elem.
  induction IH as [| c r Hc _ IHr]; [done |].
  rewrite normalizeList_cons, consNode_text, Hc, IHr. reflexivity.
Qed.

(** Merging text nodes keeps the text. *)
Lemma normalizeList_text (ch : list Node) :
  textOfList (normalizeList ch) = textOfList ch.
Proof.
  induction ch as [| c r IH]; [done |].
  rewrite normalizeList_cons, consNode_text, normalize_text, IH. reflexivity.
Qed.

(** ** Inline styles: a collapsed selection *)

(** C9. With a collapsed selection, [applyInlineStyle] returns at once:
    the tree and the selection it leaves are those it was given, whatever
    the tag and the tree. *)
Theorem applyInlineStyle_collapsed (tagName : string) (st : State) (range : Range) :
  getSelectionAndRange st = Some range ->
  collapsed range = true ->
  applyInlineStyle tagName st = st.
Proof.
  intros Hsel Hc. unfold applyInlineStyle, isRangeEmpty. by rewrite Hsel, Hc.
Qed.

Lemma applyInlineStyle_collapsed_witness :
  let st := mkState (Elem "DIV" [Elem "P" [Text "hello world"]])
                    (Some (mkRange [0; 0] 3 [0; 0] 3)) in
  applyInlineStyle "strong" st = st.
Proof.
  intros st. apply (applyInlineStyle_collapsed "strong" st (mkRange [0; 0] 3 [0; 0] 3)).
  - reflexivity.
  - reflexivity.
Defined.

(** ** Lists *)

Section Lists.

Variable parseHTML : string -> string -> list Node.

Variable innerHTML : list Node -> string.

(** C10. Inside a list but with no [LI] above the selection, [toggleList]
    changes nothing: neither the tree nor the selection. *)
Theorem toggleList_without_item (listType : string) (st : State) (range : Range)
    (l : path) :
  getSelectionAndRange st = Some range ->
  findList (body st) (commonAncestorContainer range) = Some l ->
  hasParentWithTag (body st) (commonAncestorContainer range) "LI" = None ->
  toggleList parseHTML innerHTML listType st = st.
Proof.
  intros Hsel Hl Hli. unfold toggleList. rewrite Hsel, Hl.
  unfold removeFromList. by rewrite Hli.
Qed.

(** C4 (as the code has it). The list found above the selection is never
    compared with the requested kind: inside a list of either kind,
    [toggleList] takes the removal branch whatever kind is requested, and
    it creates a list only when no list of either kind is above the
    selection. *)
Theorem toggleList_ignores_kind (listType : string) (st : State) (range : Range) :
  getSelectionAndRange st = Some range ->
  match findList (body st) (commonAncestorContainer range) with
  | Some l =>
      toggleList parseHTML innerHTML listType st
      = removeFromList parseHTML innerHTML l range st
      /\ forall otherType,
           toggleList parseHTML innerHTML otherType st
           = toggleList parseHTML innerHTML listType st
  | None =>
      toggleList parseHTML innerHTML listType st
      = createList parseHTML innerHTML listType range st
  end.
Proof.
  intros Hsel. unfold toggleList. rewrite Hsel.
  destruct (findList (body st) (commonAncestorContainer range)); auto.
Qed.

End Lists.

Lemma toggleList_without_item_witness :
  toggleList parsePlain plainMarkup "ul" itemSelected = itemSelected.
Proof.
  apply (toggleList_without_item parsePlain plainMarkup "ul" itemSelected
           (mkRange [0] 0 [0] 1) [0]);
    reflexivity.
Defined.

Lemma toggleList_ignores_kind_witness :
  toggleList parsePlain plainMarkup "ol" cursorInA
    = removeFromList parsePlain plainMarkup [0] (mkRange [0; 0; 0] 1 [0; 0; 0] 1) cursorInA
  /\ forall otherType,
       toggleList parsePlain plainMarkup otherType cursorInA
       = toggleList parsePlain plainMarkup "ol" cursorInA.
Proof.
  exact (toggleList_ignores_kind parsePlain plainMarkup "ol" cursorInA
           (mkRange [0; 0; 0] 1 [0; 0; 0] 1) eq_refl).
Defined.

(** C4 fails as stated: with the cursor in an item of a [UL], asking for
    an ordered list does not take the creating branch and nests no [OL];
    the item leaves its list as a paragraph. *)
Lemma toggleList_other_kind_counterexample :
  body (toggleList parsePlain plainMarkup "ol" cursorInA) = editor [Elem "P" [Text "A"]]
  /\ toggleList parsePlain plainMarkup "ol" cursorInA
     <> createList parsePlain plainMarkup "ol" (mkRange [0; 0; 0] 1 [0; 0; 0] 1) cursorInA.
Proof. split; [reflexivity | discriminate]. Qed.

(** ** Block formats *)

Lemma commonPrefix_same (p : path) : commonPrefix p p = p.
Proof. induction p as [| i p IH]; simpl; [done |]. by rewrite Nat.eqb_refl, IH. Qed.

Lemma climbToBlock_Some (fuel : nat) (root : Node) (current q : path) :
  climbToBlock fuel root current = Some q ->
  q <> [] /\ (exists r, current = q ++ r) /\
  exists t ch, getNode q root = Some (Elem t ch) /\ includes blockTags t = true.
Proof.
  revert current. induction fuel as [| fuel IH]; intros current; simpl; [done |].
  destruct current as [| i p]; [done |].
  set (cur := i :: p).
  destruct (getNode cur root) as [n |] eqn:E; [| done].
  destruct (isBlockElement n) eqn:Hb.
  - intros [= <-]. split; [done |]. split; [exists []; by rewrite app_nil_r |].
    destruct n as [s | t ch]; [done |]. by exists t, ch.
  - intros H. destruct (IH _ H) as (Hq & [r Hr] & Hch). split; [done |]. split; [| done].
    exists (r ++ [childIndex cur]). rewrite app_assoc, <- Hr. by apply path_snoc.
Qed.

Lemma skipNonElements_prefix (fuel : nat) (root : Node) (current : path) :
  exists r, current = skipNonElements fuel root current ++ r.
Proof.
  revert current. induction fuel as [| fuel IH]; intros current; simpl.
  - exists []. by rewrite app_nil_r.
  - destruct (getNode current root) as [[s | t ch] |];
      try (exists []; by rewrite app_nil_r).
    destruct current as [| i p]; [destruct (IH []) as [r Hr]; by exists r |].
    destruct (IH (parentPath (i :: p))) as [r Hr].
    exists (r ++ [childIndex (i :: p)]). rewrite app_assoc, <- Hr. by apply path_snoc.
Qed.

Lemma findParentBlock_Some (root : Node) (node q : path) :
  findParentBlock root node = Some q ->
  q <> [] /\ (exists r, node = q ++ r) /\
  exists t ch, getNode q root = Some (Elem t ch) /\ includes blockTags t = true.
Proof.
  unfold findParentBlock. intros H.
  destruct (climbToBlock_Some _ _ _ _ H) as (Hq & [r Hr] & Hn).
  split; [done |]. split; [| done].
  destruct (skipNonElements_prefix (S (length node)) root node) as [r' Hr'].
  exists (r ++ r'). by rewrite app_assoc, <- Hr.
Qed.

(** A block element is its own nearest block. *)
Lemma findParentBlock_block (root : Node) (b : path) (t : string) (ch : list Node) :
  b <> [] -> getNode b root = Some (Elem t ch) -> includes blockTags t = true ->
  findParentBlock root b = Some b.
Proof.
  intros Hb Hn Ht. unfold findParentBlock.
  assert (Hskip : skipNonElements (S (length b)) root b = b) by (simpl; by rewrite Hn).
  rewrite Hskip. destruct b as [| i p]; [done |].
  cbn [climbToBlock]. rewrite Hn. cbn [isBlockElement]. by rewrite Ht.
Qed.

Section BlockFormat.

Variable parseHTML : string -> string -> list Node.

Variable innerHTML : list Node -> string.

(** The state [applyBlockFormat] leaves when a block is found. *)
Lemma applyBlockFormat_found (tagName : string) (st : State) (range : Range)
    (b : path) (t : string) (ch : list Node) :
  getSelectionAndRange st = Some range ->
  findParentBlock (body st) (commonAncestorContainer range) = Some b ->
  getNode b (body st) = Some (Elem t ch) ->
  applyBlockFormat parseHTML innerHTML tagName st
  = mkState (replaceWith b (Elem (toggledTag t tagName) (parseHTML (toggledTag t tagName) (innerHTML ch)))
               (body st))
            (Some (mkRange b (length (parseHTML (toggledTag t tagName) (innerHTML ch)))
                           b (length (parseHTML (toggledTag t tagName) (innerHTML ch))))).
Proof.
  intros Hsel Hb Hn. unfold applyBlockFormat. rewrite Hsel, Hb, Hn.
  destruct (findParentBlock_Some _ _ _ Hb) as (Hne & _ & _).
  assert (Htag : toUpperCase (if String.eqb t (toUpperCase tagName) then "p" else tagName)
                 = toggledTag t tagName).
  { unfold toggledTag. by destruct (String.eqb t (toUpperCase tagName)). }
  rewrite Htag. unfold selectNodeContents, collapseToEnd.
  rewrite replaceWith_get; [done | done | by rewrite Hn].
Qed.

(** The same on the state that an earlier application has left: the
    cursor in the block at [b]. *)
Lemma applyBlockFormat_again (tagName : string) (s : State) (b : path) (k : nat)
    (t : string) (ch : list Node) :
  b <> [] ->
  getSelectionAndRange s = Some (mkRange b k b k) ->
  getNode b (body s) = Some (Elem t ch) ->
  includes blockTags t = true ->
  applyBlockFormat parseHTML innerHTML tagName s
  = mkState (replaceWith b (Elem (toggledTag t tagName) (parseHTML (toggledTag t tagName) (innerHTML ch)))
               (body s))
            (Some (mkRange b (length (parseHTML (toggledTag t tagName) (innerHTML ch)))
                           b (length (parseHTML (toggledTag t tagName) (innerHTML ch))))).
Proof.
  intros Hne Hs Hn Ht. apply (applyBlockFormat_found _ _ _ _ _ _ Hs); [| done].
  unfold commonAncestorContainer. simpl. rewrite commonPrefix_same.
  by eapply findParentBlock_block.
Qed.

(** C6 (as the code has it). The block found is replaced, where it
    stands, by a block with the toggled tag: [P] when the tag was the
    requested one, the requested tag otherwise.  Its children are the
    nodes that the parser reads from the markup of the old children, one
    round trip through [innerHTML] for each application.  A second and a
    third application toggle the tag again: from a block of another kind
    the three tags are the requested one, [P], the requested one; from a
    block of the requested kind they are [P], the requested one, [P].
    Where the round trips give back the children they are given, the
    three blocks hold the children of the first block. *)
Theorem applyBlockFormat_toggles (tagName : string) (st : State) (range : Range)
    (b : path) (t : string) (ch : list Node) :
  getSelectionAndRange st = Some range ->
  findParentBlock (body st) (commonAncestorContainer range) = Some b ->
  getNode b (body st) = Some (Elem t ch) ->
  let copy := fun T children => parseHTML T (innerHTML children) in
  let once := applyBlockFormat parseHTML innerHTML tagName st in
  let twice := applyBlockFormat parseHTML innerHTML tagName once in
  let thrice := applyBlockFormat parseHTML innerHTML tagName twice in
  let first := toggledTag t tagName in
  let second := toggledTag first tagName in
  let third := toggledTag second tagName in
  getNode b (body once) = Some (Elem first (copy first ch))
  /\ (t <> toUpperCase tagName ->
      first = toUpperCase tagName /\ second = "P" /\ third = toUpperCase tagName)
  /\ (t = toUpperCase tagName ->
      first = "P" /\ second = toUpperCase tagName /\ third = "P")
  /\ (includes blockTags (toUpperCase tagName) = true ->
      getNode b (body twice) = Some (Elem second (copy second (copy first ch)))
      /\ getNode b (body thrice)
         = Some (Elem third (copy third (copy second (copy first ch))))
      /\ (copy "P" ch = ch -> copy (toUpperCase tagName) ch = ch ->
          getNode b (body once) = Some (Elem first ch)
          /\ getNode b (body twice) = Some (Elem second ch)
          /\ getNode b (body thrice) = Some (Elem third ch))).
Proof.
  intros Hsel Hb Hn copy once twice thrice first second third.
  destruct (findParentBlock_Some _ _ _ Hb) as (Hne & _ & _).
  assert (Hget : forall (root : Node) (new : Node),
            is_Some (getNode b root) -> getNode b (replaceWith b new root) = Some new).
  { intros root new H. by apply replaceWith_get. }
  assert (H1 : once = mkState
            (replaceWith b (Elem first (copy first ch)) (body st))
            (Some (mkRange b (length (copy first ch)) b (length (copy first ch))))).
  { by apply (applyBlockFormat_found _ _ range). }
  assert (Hn1 : getNode b (body once) = Some (Elem first (copy first ch))).
  { rewrite H1. simpl. apply Hget. by rewrite Hn. }
  split; [exact Hn1 |].
  assert (Hp : toggledTag "P" tagName = toUpperCase tagName).
  { unfold toggledTag. by destruct (String.eqb_spec "P" (toUpperCase tagName)). }
  assert (Hr : toggledTag (toUpperCase tagName) tagName = "P").
  { unfold toggledTag. by rewrite String.eqb_refl. }
  assert (Htags : forall t', toggledTag t' tagName = "P"
                             \/ toggledTag t' tagName = toUpperCase tagName).
  { intros t'. unfold toggledTag. destruct (String.eqb t' (toUpperCase tagName)); tauto. }
  split; [| split].
  - intros Hother.
    assert (E1 : first = toUpperCase tagName).
    { unfold first, toggledTag. by destruct (String.eqb_spec t (toUpperCase tagName)). }
    unfold third, second. by rewrite E1, Hr, Hp.
  - intros Hsame. unfold third, second, first. by rewrite Hsame, Hr, Hp, Hr.
  - intros Hblock.
    assert (Hblocks : forall t', includes blockTags (toggledTag t' tagName) = true).
    { intros t'. unfold toggledTag. by destruct (String.eqb t' (toUpperCase tagName)). }
    assert (H2 : twice = mkState
              (replaceWith b (Elem second (copy second (copy first ch))) (body once))
              (Some (mkRange b (length (copy second (copy first ch)))
                             b (length (copy second (copy first ch)))))).
    { unfold twice.
      by rewrite (applyBlockFormat_again tagName once b (length (copy first ch)) _ _ Hne
                    ltac:(by rewrite H1) Hn1 (Hblocks t)). }
    assert (Hn2 : getNode b (body twice)
                  = Some (Elem second (copy second (copy first ch)))).
    { rewrite H2. simpl. apply Hget. by rewrite Hn1. }
    assert (Hn3 : getNode b (body thrice)
                  = Some (Elem third (copy third (copy second (copy first ch))))).
    { unfold thrice.
      rewrite (applyBlockFormat_again tagName twice b
                 (length (copy second (copy first ch))) _ _ Hne
                 ltac:(by rewrite H2) Hn2 (Hblocks first)).
      simpl. apply Hget. by rewrite Hn2. }
    split; [exact Hn2 |]. split; [exact Hn3 |].
    intros HP HT.
    assert (Hall : forall t', copy (toggledTag t' tagName) ch = ch).
    { intros t'. by destruct (Htags t') as [-> | ->]. }
    assert (E1 : copy first ch = ch) by apply Hall.
    assert (E2 : copy second ch = ch) by apply Hall.
    assert (E3 : copy third ch = ch) by apply Hall.
    rewrite E1 in Hn1, Hn2, Hn3. rewrite E2 in Hn2, Hn3. rewrite E3 in Hn3.
    by repeat split.
Qed.

End BlockFormat.

Lemma applyBlockFormat_toggles_witness :
  let once := applyBlockFormat parsePlain plainMarkup "h1" helloWorld in
  let twice := applyBlockFormat parsePlain plainMarkup "h1" once in
  let thrice := applyBlockFormat parsePlain plainMarkup "h1" twice in
  getNode [0] (body once) = Some (Elem "H1" [Text "hello world"])
  /\ getNode [0] (body twice) = Some (Elem "P" [Text "hello world"])
  /\ getNode [0] (body thrice) = Some (Elem "H1" [Text "hello world"]).
Proof.
  destruct (applyBlockFormat_toggles parsePlain plainMarkup "h1" helloWorld
              (mkRange [0; 0] 0 [0; 0] 5) [0] "P" [Text "hello world"]
              eq_refl eq_refl eq_refl)
    as (_ & _ & _ & H).
  destruct (H eq_refl) as (_ & _ & Hsame).
  exact (Hsame eq_refl eq_refl).
Defined.

(** C6 fails as stated, in two ways.  In the paragraph that removing bold
    from "b" leaves (the text nodes "a" and "b"), whose markup is "ab",
    [h1] gives a heading with the one text node "ab"; the children are not
    carried over as they were.  And on a block that is a heading of the
    requested kind already, two applications give that heading again, not
    a paragraph. *)
Lemma applyBlockFormat_children_counterexample :
  (applyInlineStyle "strong" plainThenBold = twoTexts
   /\ plainMarkup [Text "a"; Text "b"] = "ab"
   /\ getNode [0] (body (applyBlockFormat parsePlain plainMarkup "h1" twoTexts))
      = Some (Elem "H1" [Text "ab"])
   /\ getNode [0] (body (applyBlockFormat parsePlain plainMarkup "h1" twoTexts))
      <> Some (Elem "H1" [Text "a"; Text "b"]))
  /\ (getNode [0] (body cursorInHeading) = Some (Elem "H2" [Text "title"])
      /\ getNode [0] (body (applyBlockFormat parsePlain plainMarkup "h2"
                              (applyBlockFormat parsePlain plainMarkup "h2" cursorInHeading)))
         = Some (Elem "H2" [Text "title"])).
Proof.
  split; [| by split].
  split; [reflexivity |]. split; [reflexivity |]. split; [reflexivity | discriminate].
Qed.

(** ** Inline styles: removing a style *)






(** ** Inline styles: applying, then removing *)

Lemma modify_app (p q : path) (f : Node -> Node) (root : Node) :
  modify (p ++ q) f root = modify p (modify q f) root.
Proof.
  revert root. induction p as [| i p IH]; intros root; simpl; [done |].
  destruct root as [s | t ch]; [done |]. f_equal.
  apply list_alter_ext; [| done]. intros c _. apply IH.
Qed.

Lemma commonPrefix_l (p q : path) :
  p = commonPrefix p q ++ drop (length (commonPrefix p q)) p.
Proof.
  revert q. induction p as [| i p IH]; intros [| j q]; simpl; try done.
  destruct (Nat.eqb_spec i j) as [-> | _]; simpl; [| done].
  f_equal. apply IH.
Qed.

Lemma commonPrefix_r (p q : path) :
  q = commonPrefix p q ++ drop (length (commonPrefix p q)) q.
Proof.
  revert q. induction p as [| i p IH]; intros [| j q]; simpl; try done.
  destruct (Nat.eqb_spec i j) as [-> | _]; simpl; [| done].
  f_equal. apply IH.
Qed.

Lemma commonPrefix_heads (p q : path) :
  match drop (length (commonPrefix p q)) p, drop (length (commonPrefix p q)) q with
  | i :: _, j :: _ => i <> j
  | _, _ => True
  end.
Proof.
  revert q. induction p as [| i p IH]; intros [| j q]; simpl; try done.
  destruct (Nat.eqb_spec i j) as [-> | Hne]; simpl; [apply IH | done].
Qed.

Lemma pointLe_commonPrefix (p q : path) (o o' : nat) :
  pointLe p o q o'
  = pointLe (drop (length (commonPrefix p q)) p) o
            (drop (length (commonPrefix p q)) q) o'.
Proof.
  revert q. induction p as [| i p IH]; intros [| j q]; simpl; try done.
  destruct (Nat.eqb_spec i j) as [-> | Hne]; simpl; [apply IH |].
  by destruct (Nat.eqb_spec i j).
Qed.








Lemma modify_ext_all (p : path) (f g : Node -> Node) (root : Node) :
  (forall n, f n = g n) -> modify p f root = modify p g root.
Proof.
  intros H. revert root. induction p as [| i p IH]; intros root; simpl; [apply H |].
  destruct root as [s | t ch]; [done |]. f_equal.
  apply list_alter_ext; [| done]. intros c _. apply IH.
Qed.

Lemma unwrapElement_snoc (p : path) (i : nat) (root : Node) :
  unwrapElement (p ++ [i]) root
  = modifyChildren p (fun ch =>
      match ch !! i with
      | Some element => take i ch ++ children element ++ drop (S i) ch
      | None => ch
      end) root.
Proof.
  unfold unwrapElement. rewrite parentPath_snoc, childIndex_snoc. by destruct p.
Qed.

Lemma insertNode_text (p : path) (i o : nat) (root new : Node) (s : string) :
  getNode (p ++ [i]) root = Some (Text s) ->
  insertNode root (p ++ [i], o) new
  = (modifyChildren p (fun ch =>
       take i ch ++ [Text (strTake o s); new; Text (strDrop o s)] ++ drop (S i) ch) root,
     p ++ [S i]).
Proof.
  intros H. unfold insertNode. rewrite H, parentPath_snoc, childIndex_snoc.
  by destruct p.
Qed.

(** The tree after wrapping a range whose common ancestor is an element:
    the wrapper stands between what is kept on the left and on the right. *)
Lemma wrapContents_in_element (root : Node) (r : Range) (tagName : string)
    (c : path) (t : string) (ch kL fL fR kR : list Node) (lo hi : nat) :
  collapsed r = false ->
  commonAncestorContainer r = c ->
  getNode c root = Some (Elem t ch) ->
  startSide ch (drop (length c) (startContainer r)) (startOffset r) = (kL, fL, lo) ->
  endSide ch (drop (length c) (endContainer r)) (endOffset r) = (fR, kR, hi) ->
  wrapContents root r tagName
  = (modify c (fun _ =>
       Elem t (kL ++ Elem (toUpperCase tagName) (fL ++ take (hi - lo) (drop lo ch) ++ fR)
                  :: kR)) root,
     c ++ [length kL]).
Proof.
  intros Hc Hcac Hn Hs He. unfold wrapContents, extractContents.
  rewrite Hc, Hcac, Hn. unfold extractFrom. rewrite Hs, He.
  unfold insertNode. rewrite (getNode_modify _ _ _ _ Hn).
  unfold modifyChildren. rewrite modify_modify. f_equal.
  apply modify_ext_all. intros _. f_equal.
  by rewrite take_app_length, drop_app_length.
Qed.


(** The same when the range lies in one text node. *)
Lemma wrapContents_in_text (root : Node) (r : Range) (tagName : string)
    (p : path) (i : nat) (t : string) (ch : list Node) (s : string) :
  collapsed r = false ->
  commonAncestorContainer r = p ++ [i] ->
  getNode p root = Some (Elem t ch) ->
  ch !! i = Some (Text s) ->
  let so := startOffset r in
  let eo := endOffset r in
  let s' := strTake so s +:+ strDrop eo s in
  wrapContents root r tagName
  = (modify p (fun _ =>
       Elem t (take i ch
               ++ [Text (strTake so s');
                   Elem (toUpperCase tagName) [Text (strTake (eo - so) (strDrop so s))];
                   Text (strDrop so s')]
               ++ drop (S i) ch)) root,
     p ++ [S i]).
Proof.
  intros Hc Hcac Hn Hi so eo s'. unfold wrapContents, extractContents.
  assert (Htext : getNode (p ++ [i]) root = Some (Text s)).
  { by rewrite (getNode_snoc _ _ _ _ _ Hn). }
  rewrite Hc, Hcac, Htext. unfold extractFrom. fold so eo s'.
  rewrite (insertNode_text _ _ _ _ _ s');
    [| exact (getNode_modify _ (fun _ => Text s') _ _ Htext)].
  f_equal. unfold modifyChildren. rewrite modify_app, modify_modify.
  apply (modify_ext _ _ _ _ _ Hn). simpl. f_equal.
  rewrite take_alter_ge by lia. rewrite drop_alter_lt by lia. done.
Qed.







Lemma strTake_take_app (n : nat) (s x : string) :
  n <= String.length s -> strTake n (strTake n s +:+ x) = strTake n s.
Proof.
  revert s. induction n as [| n IH]; intros s H; [done |].
  destruct s as [| c s]; simpl in H; [lia |].
  cbn [strTake]. rewrite str_app_cons. cbn [strTake]. rewrite IH; [done | lia].
Qed.

Lemma strDrop_take_app (n : nat) (s x : string) :
  n <= String.length s -> strDrop n (strTake n s +:+ x) = x.
Proof.
  revert s. induction n as [| n IH]; intros s H; [done |].
  destruct s as [| c s]; simpl in H; [lia |].
  cbn [strTake]. rewrite str_app_cons. cbn [strDrop]. apply IH. lia.
Qed.

Lemma str_three_parts (so eo : nat) (s : string) :
  so <= eo ->
  strTake so s +:+ (strTake (eo - so) (strDrop so s) +:+ strDrop eo s) = s.
Proof.
  intros H. replace eo with (so + (eo - so)) at 2 by lia.
  by rewrite <- strDrop_strDrop, !strTake_strDrop.
Qed.



(** ** The structure of a document *)



















(** When the upward search finds nothing, no node from the start up to
    below the root is an element with the tag. *)
Lemma climbToTag_None (fuel : nat) (root : Node) (current : path) (TAG : string) :
  length current < fuel ->
  climbToTag fuel root current TAG = None ->
  forall q r ch, current = q ++ r -> q <> [] ->
    getNode q root <> Some (Elem TAG ch).
Proof.
  revert current. induction fuel as [| fuel IH]; intros current Hfuel; [lia |].
  simpl. destruct current as [| i p].
  - intros _ q r ch Hq Hne. symmetry in Hq. by apply app_eq_nil in Hq as [? _].
  - set (cur := i :: p) in *.
    assert (Hlen : length (parentPath cur) < fuel).
    { pose proof (parentPath_length cur ltac:(done)). lia. }
    assert (Hrec : climbToTag fuel root (parentPath cur) TAG = None ->
                   (forall ch, getNode cur root <> Some (Elem TAG ch)) ->
                   forall q r ch, cur = q ++ r -> q <> [] ->
                     getNode q root <> Some (Elem TAG ch)).
    { intros Hnone Hcur q r ch Hq Hne.
      destruct r as [| x r' _] using rev_ind.
      - rewrite app_nil_r in Hq. subst q. apply Hcur.
      - apply (IH _ Hlen Hnone q r'); [| done].
        rewrite Hq, app_assoc. apply parentPath_snoc. }
    destruct (getNode cur root) as [[s | t ch0] |] eqn:E.
    + intros H. by apply Hrec.
    + destruct (String.eqb_spec t TAG) as [-> | Hne]; [done |].
      intros H. apply Hrec; [done |]. intros ch [= ? ?]. done.
    + intros H. by apply Hrec.
Qed.

Lemma findList_None (root : Node) (node q r : path) (t : string) (ch : list Node) :
  findList root node = None ->
  node = q ++ r -> q <> [] -> getNode q root = Some (Elem t ch) ->
  isListTag t = false.
Proof.
  unfold findList. intros H Hq Hne Hn.
  destruct (hasParentWithTag root node "UL") eqn:Hul; [done |].
  unfold hasParentWithTag in *.
  pose proof (climbToTag_None _ _ _ _ (Nat.lt_succ_diag_r _) Hul q r ch Hq Hne) as H1.
  pose proof (climbToTag_None _ _ _ _ (Nat.lt_succ_diag_r _) H q r ch Hq Hne) as H2.
  unfold isListTag. destruct (String.eqb_spec t "UL") as [-> | _]; [done |].
  destruct (String.eqb_spec t "OL") as [-> | _]; done.
Qed.











Section Structure.

Variable parseHTML : string -> string -> list Node.

Variable innerHTML : list Node -> string.






End Structure.





(** ** The text of the document *)

(** C1, at a failing input. With no block found (the selection runs from
    one paragraph into the next), the selected text, "a<b>cd", is assigned
    to [innerHTML]: the new heading holds what the HTML parser reads from
    that string, not a text node with these characters. *)
Theorem applyBlockFormat_parses_selected_text (parseHTML : string -> string -> list Node)
    (innerHTML : list Node -> string) :
  toString (body markupInText) (mkRange [0; 0] 0 [1; 0] 1) = "a<b>cd"
  /\ body (applyBlockFormat parseHTML innerHTML "h1" markupInText)
     = editor [Elem "P" [Text ""]; Elem "H1" (parseHTML "H1" "a<b>cd"); Elem "P" [Text ""]]
  /\ textContent (body (applyBlockFormat parseHTML innerHTML "h1" markupInText))
     = textOfList (parseHTML "H1" "a<b>cd").
Proof.
  split; [reflexivity |]. split; [reflexivity |].
  change (textOfList [Elem "P" [Text ""]; Elem "H1" (parseHTML "H1" "a<b>cd"); Elem "P" [Text ""]]
          = textOfList (parseHTML "H1" "a<b>cd")).
  unfold textOfList at 1. cbn [foldr]. rewrite !textContent_Elem.
  change (textOfList [Text ""]) with "". by rewrite str_app_nil_l, !str_app_nil_r.
Qed.

(** A second loss of text: inside nested lists, the outer [UL] is the
    list found even from an item of the inner [OL]; having one child, it
    is replaced whole by the paragraph of that inner item, and the other
    inner item goes with it. *)
Lemma toggleList_nested_loses_text :
  textContent (body nestedLists) = "xz"
  /\ body (toggleList parsePlain plainMarkup "ul" nestedLists) = editor [Elem "P" [Text "x"]]
  /\ textContent (body (toggleList parsePlain plainMarkup "ul" nestedLists)) = "x".
Proof. repeat split. Qed.

(** * Further properties of the formatting functions *)

(** ** The upward searches find the nearest match *)

Lemma getNode_prefix (q r : path) (root : Node) :
  is_Some (getNode (q ++ r) root) -> is_Some (getNode q root).
Proof.
  rewrite getNode_app. destruct (getNode q root); [by eexists | by intros [? ?]].
Qed.

Lemma prefix_of_parent (cur q r : path) :
  cur = q ++ r -> r <> [] -> exists r', parentPath cur = q ++ r'.
Proof.
  intros -> Hr. destruct r as [| x r _] using rev_ind; [done |].
  exists r. rewrite app_assoc. apply parentPath_snoc.
Qed.

Lemma climbToTag_nearest (fuel : nat) (root : Node) (current q : path) (TAG : string) :
  climbToTag fuel root current TAG = Some q ->
  forall q' r' ch', current = q' ++ r' -> length q < length q' ->
    getNode q' root <> Some (Elem TAG ch').
Proof.
  revert current. induction fuel as [| fuel IH]; intros current; simpl; [done |].
  destruct current as [| i p]; [done |].
  set (cur := i :: p).
  assert (Hup : (forall ch, getNode cur root <> Some (Elem TAG ch)) ->
                climbToTag fuel root (parentPath cur) TAG = Some q ->
                forall q' r' ch', cur = q' ++ r' -> length q < length q' ->
                  getNode q' root <> Some (Elem TAG ch')).
  { intros Hcur H q' r' ch' Hq' Hlen.
    destruct (decide (r' = [])) as [-> | Hr].
    - rewrite app_nil_r in Hq'. subst q'. apply Hcur.
    - destruct (prefix_of_parent _ _ _ Hq' Hr) as [r'' Hr''].
      by apply (IH _ H q' r''). }
  destruct (getNode cur root) as [[s | t ch] |] eqn:E.
  - by apply Hup.
  - destruct (String.eqb_spec t TAG) as [-> | Hne].
    + intros [= <-] q' r' ch' Hq' Hlen. apply (f_equal length) in Hq'.
      rewrite length_app in Hq'. lia.
    + apply Hup. intros ch0 [= ? ?]. done.
  - by apply Hup.
Qed.

(** X1. [hasParentWithTag] returns the nearest inclusive ancestor of the
    node, below [#noteBody], that is an element with the tag: no node
    between it and the start has the tag; and it returns nothing only when
    no node from the start up to below [#noteBody] has the tag. *)
Theorem hasParentWithTag_nearest (root : Node) (node : path) (tagName : string) :
  match hasParentWithTag root node tagName with
  | Some q =>
      q <> [] /\ (exists r, node = q ++ r)
      /\ (exists ch, getNode q root = Some (Elem (toUpperCase tagName) ch))
      /\ forall q' r' ch', node = q' ++ r' -> length q < length q' ->
           getNode q' root <> Some (Elem (toUpperCase tagName) ch')
  | None =>
      forall q r ch, node = q ++ r -> q <> [] ->
        getNode q root <> Some (Elem (toUpperCase tagName) ch)
  end.
Proof.
  destruct (hasParentWithTag root node tagName) as [q |] eqn:H.
  - destruct (hasParentWithTag_Some _ _ _ _ H) as (Hne & Hr & Hch).
    repeat split; try done. by apply (climbToTag_nearest _ _ _ _ _ H).
  - by apply (climbToTag_None _ _ _ _ (Nat.lt_succ_diag_r _) H).
Qed.

Lemma prefix_compare (node a b ra rb : path) :
  node = a ++ ra -> node = b ++ rb -> length a <= length b ->
  exists r, b = a ++ r.
Proof.
  revert node b ra rb. induction a as [| x a IH]; intros node b ra rb Ha Hb Hlen.
  - by exists b.
  - destruct b as [| y b]; [simpl in Hlen; lia |].
    subst node. simpl in Hb. injection Hb as -> Hb.
    destruct (IH _ b ra rb eq_refl Hb ltac:(simpl in Hlen; lia)) as [r ->].
    by exists r.
Qed.

Lemma climbToBlock_nearest (fuel : nat) (root : Node) (current q : path) :
  climbToBlock fuel root current = Some q ->
  forall q' r', current = q' ++ r' -> length q < length q' -> blockAt root q' = false.
Proof.
  revert current. induction fuel as [| fuel IH]; intros current; simpl; [done |].
  destruct current as [| i p]; [done |].
  set (cur := i :: p).
  destruct (getNode cur root) as [n |] eqn:E; [| done].
  destruct (isBlockElement n) eqn:Hb.
  - intros [= <-] q' r' Hq' Hlen. apply (f_equal length) in Hq'.
    rewrite length_app in Hq'. lia.
  - intros H q' r' Hq' Hlen.
    destruct (decide (r' = [])) as [-> | Hr].
    + rewrite app_nil_r in Hq'. subst q'. unfold blockAt. by rewrite E.
    + destruct (prefix_of_parent _ _ _ Hq' Hr) as [r'' Hr''].
      by apply (IH _ H q' r'').
Qed.

Lemma climbToBlock_None (fuel : nat) (root : Node) (current : path) :
  length current < fuel ->
  is_Some (getNode current root) ->
  climbToBlock fuel root current = None ->
  forall q r, current = q ++ r -> q <> [] -> blockAt root q = false.
Proof.
  revert current. induction fuel as [| fuel IH]; intros current Hfuel Hvalid; [lia |].
  simpl. destruct current as [| i p].
  - intros _ q r Hq Hne. symmetry in Hq. by apply app_eq_nil in Hq as [? _].
  - set (cur := i :: p) in *.
    destruct Hvalid as [n Hn]. rewrite Hn.
    destruct (isBlockElement n) eqn:Hb; [done |].
    intros H q r Hq Hne.
    destruct (decide (r = [])) as [-> | Hr].
    + rewrite app_nil_r in Hq. subst q. unfold blockAt. by rewrite Hn.
    + destruct (prefix_of_parent _ _ _ Hq Hr) as [r' Hr'].
      apply (IH (parentPath cur)) with (r := r'); try done.
      * pose proof (parentPath_length cur ltac:(done)). lia.
      * apply (getNode_prefix _ [childIndex cur]).
        rewrite <- (path_snoc cur ltac:(done)). by rewrite Hn.
Qed.

Lemma skipNonElements_spec (fuel : nat) (root : Node) (current : path) :
  is_Some (getNode current root) ->
  is_Some (getNode (skipNonElements fuel root current) root)
  /\ forall q' r', current = q' ++ r' ->
       length (skipNonElements fuel root current) < length q' ->
       blockAt root q' = false.
Proof.
  revert current. induction fuel as [| fuel IH]; intros current Hvalid; simpl.
  - split; [done |]. intros q' r' Hq' Hlen. apply (f_equal length) in Hq'.
    rewrite length_app in Hq'. lia.
  - destruct (getNode current root) as [[s | t ch] |] eqn:E.
    + assert (Hparent : is_Some (getNode (parentPath current) root)).
      { destruct current as [| i p];
          [change (is_Some (getNode [] root)); by rewrite E |].
        apply (getNode_prefix _ [childIndex (i :: p)]).
        rewrite <- (path_snoc (i :: p) ltac:(done)). by rewrite E. }
      destruct (IH _ Hparent) as [Hv Hskip]. split; [done |].
      intros q' r' Hq' Hlen.
      destruct (decide (r' = [])) as [-> | Hr].
      * rewrite app_nil_r in Hq'. subst q'. unfold blockAt. by rewrite E.
      * destruct (prefix_of_parent _ _ _ Hq' Hr) as [r'' Hr''].
        by apply (Hskip q' r'').
    + split; [by rewrite E |]. intros q' r' Hq' Hlen. apply (f_equal length) in Hq'.
      rewrite length_app in Hq'. lia.
    + by destruct Hvalid.
Qed.

(** X2. For a node of the tree, [findParentBlock] returns the nearest
    inclusive ancestor below [#noteBody] that is a block element, never
    [#noteBody] itself; and it returns nothing only when no node from the
    start up to below [#noteBody] is a block element. *)
Theorem findParentBlock_nearest (root : Node) (node : path) :
  is_Some (getNode node root) ->
  match findParentBlock root node with
  | Some b =>
      b <> [] /\ (exists r, node = b ++ r) /\ blockAt root b = true
      /\ forall q' r', node = q' ++ r' -> length b < length q' -> blockAt root q' = false
  | None => forall q r, node = q ++ r -> q <> [] -> blockAt root q = false
  end.
Proof.
  intros Hvalid.
  destruct (skipNonElements_spec (S (length node)) root node Hvalid) as [Hv Hskip].
  destruct (skipNonElements_prefix (S (length node)) root node) as [rc Hrc].
  destruct (findParentBlock root node) as [b |] eqn:H.
  - destruct (findParentBlock_Some _ _ _ H) as (Hne & Hr & t & ch & Hn & Hb).
    repeat split; try done.
    + unfold blockAt. by rewrite Hn.
    + intros q' r' Hq' Hlen. unfold findParentBlock in H.
      set (c := skipNonElements (S (length node)) root node) in *.
      destruct (le_lt_dec (length q') (length c)) as [Hle | Hgt];
        [| by apply (Hskip q' r')].
      destruct (prefix_compare _ _ _ _ _ Hq' Hrc Hle) as [r Hc].
      by apply (climbToBlock_nearest _ _ _ _ H q' r).
  - intros q r Hq Hne. unfold findParentBlock in H.
    set (c := skipNonElements (S (length node)) root node) in *.
    destruct (le_lt_dec (length q) (length c)) as [Hle | Hgt];
      [| by apply (Hskip q r)].
    destruct (prefix_compare _ _ _ _ _ Hq Hrc Hle) as [r' Hc].
    by apply (climbToBlock_None _ _ _ (Nat.lt_succ_diag_r _) Hv H q r').
Qed.

Lemma findParentBlock_nearest_witness :
  [0; 0] <> [] /\ (exists r, [0; 0; 1; 0] = [0; 0] ++ r) /\ blockAt quotedBold [0; 0] = true
  /\ forall q' r', [0; 0; 1; 0] = q' ++ r' -> length [0; 0] < length q' ->
       blockAt quotedBold q' = false.
Proof.
  exact (findParentBlock_nearest quotedBold [0; 0; 1; 0] (mk_is_Some _ _ eq_refl)).
Defined.

(** ** The text of the document under the formatting functions *)

Lemma textOfList_cons (c : Node) (l : list Node) :
  textOfList (c :: l) = textContent c +:+ textOfList l.
Proof. reflexivity. Qed.

Lemma textOfList_app (l1 l2 : list Node) :
  textOfList (l1 ++ l2) = textOfList l1 +:+ textOfList l2.
Proof.
  induction l1 as [| c l1 IH]; [done |].
  change ((c :: l1) ++ l2) with (c :: (l1 ++ l2)).
  by rewrite !textOfList_cons, IH, str_app_assoc.
Qed.

Lemma textOfList_alter (g : Node -> Node) (i : nat) (l : list Node) :
  (forall x, l !! i = Some x -> textContent (g x) = textContent x) ->
  textOfList (alter g i l) = textOfList l.
Proof.
  revert i. induction l as [| c l IH]; intros i H; [done |].
  destruct i as [| i].
  - change (textOfList (g c :: l) = textOfList (c :: l)).
    by rewrite !textOfList_cons, (H c).
  - change (textOfList (c :: alter g i l) = textOfList (c :: l)).
    rewrite !textOfList_cons. f_equal. apply IH. intros x Hx. by apply H.
Qed.

(** Rewriting a node into one with the same text leaves the text of the
    tree. *)
Lemma textContent_modify (p : path) (f : Node -> Node) (root n : Node) :
  getNode p root = Some n -> textContent (f n) = textContent n ->
  textContent (modify p f root) = textContent root.
Proof.
  revert root. induction p as [| i p IH]; intros root; simpl.
  - by intros [= ->].
  - destruct root as [s | t ch]; [done |].
    destruct (ch !! i) as [x |] eqn:E; [| done]. intros Hn Hf.
    rewrite !textContent_Elem. apply textOfList_alter.
    intros x' Hx'. assert (x' = x) as -> by congruence. by apply IH.
Qed.

Lemma textContent_set_children (p : path) (root : Node) (t : string) (ch new : list Node) :
  getNode p root = Some (Elem t ch) ->
  textOfList new = textOfList ch ->
  textContent (modify p (fun _ => Elem t new) root) = textContent root.
Proof.
  intros Hn Ht. apply (textContent_modify _ _ _ _ Hn). by rewrite !textContent_Elem.
Qed.

Lemma textContent_replaceWith (b : path) (new old root : Node) :
  b <> [] -> getNode b root = Some old -> textContent new = textContent old ->
  textContent (replaceWith b new root) = textContent root.
Proof.
  intros Hb Hold Ht. rewrite (path_snoc b Hb) in Hold |- *.
  destruct (getNode_snoc_inv _ _ _ _ Hold) as (tp & chp & Hp & Hi).
  rewrite replaceWith_snoc. unfold modifyChildren.
  apply (textContent_modify _ _ _ _ Hp). rewrite !textContent_Elem.
  rewrite insert_take_drop by (by eapply lookup_lt_Some).
  rewrite <- (take_drop_middle _ _ _ Hi) at 3.
  by rewrite !textOfList_app, !textOfList_cons, Ht.
Qed.

Lemma textContent_unwrapElement (root : Node) (e : path) (t : string)
    (kids : list Node) :
  getNode e root = Some (Elem t kids) ->
  textContent (unwrapElement e root) = textContent root.
Proof.
  intros He. destruct (decide (e = [])) as [-> | Hne]; [done |].
  rewrite (path_snoc e Hne) in He |- *.
  destruct (getNode_snoc_inv _ _ _ _ He) as (tp & chp & Hp & Hi).
  rewrite unwrapElement_snoc. unfold modifyChildren.
  apply (textContent_modify _ _ _ _ Hp). rewrite !textContent_Elem, Hi.
  rewrite <- (take_drop_middle _ _ _ Hi) at 3.
  by rewrite !textOfList_app, !textOfList_cons.
Qed.

Lemma splitAt_text (p : path) (o : nat) (n : Node) :
  textContent (splitAt p o n).1 +:+ textContent (splitAt p o n).2 = textContent n.
Proof.
  revert n. induction p as [| i p IH]; intros [s | t ch].
  - apply strTake_strDrop.
  - cbn [splitAt fst snd]. by rewrite !textContent_Elem, <- textOfList_app, take_drop.
  - apply strTake_strDrop.
  - cbn [splitAt]. destruct (ch !! i) as [c |] eqn:E.
    + specialize (IH c). destruct (splitAt p o c) as [l r]. cbn [fst snd] in *.
      rewrite !textContent_Elem, textOfList_app, !textOfList_cons.
      change (textOfList []) with "". rewrite str_app_nil_r, str_app_assoc.
      rewrite <- (str_app_assoc (textContent l)), IH.
      rewrite <- (take_drop_middle _ _ _ E) at 3.
      by rewrite textOfList_app, textOfList_cons.
    + cbn [fst snd]. rewrite (textContent_Elem t []).
      change (textOfList []) with "". apply str_app_nil_r.
Qed.

Lemma startSide_text (ch : list Node) (sp : path) (so : nat)
    (kL fL : list Node) (lo : nat) :
  startSide ch sp so = (kL, fL, lo) ->
  textOfList kL +:+ textOfList fL = textOfList (take lo ch).
Proof.
  intros Hs. destruct sp as [| i r]; simpl in Hs.
  - injection Hs as <- <- <-. apply str_app_nil_r.
  - destruct (ch !! i) as [c |] eqn:E.
    + pose proof (splitAt_text r so c) as Hc.
      destruct (splitAt r so c) as [k x]. injection Hs as <- <- <-. cbn [fst snd] in Hc.
      rewrite (take_S_r _ _ _ E), !textOfList_app, !textOfList_cons.
      change (textOfList []) with "". by rewrite !str_app_nil_r, str_app_assoc, Hc.
    + injection Hs as <- <- <-. apply str_app_nil_r.
Qed.

Lemma endSide_text (ch : list Node) (ep : path) (eo : nat)
    (fR kR : list Node) (hi : nat) :
  endSide ch ep eo = (fR, kR, hi) ->
  textOfList fR +:+ textOfList kR = textOfList (drop hi ch).
Proof.
  intros He. destruct ep as [| j r]; simpl in He.
  - by injection He as <- <- <-.
  - destruct (ch !! j) as [c |] eqn:E.
    + pose proof (splitAt_text r eo c) as Hc.
      destruct (splitAt r eo c) as [x k]. injection He as <- <- <-. cbn [fst snd] in Hc.
      rewrite (drop_S _ _ _ E), !textOfList_cons.
      change (textOfList []) with "". by rewrite str_app_nil_r, <- str_app_assoc, Hc.
    + by injection He as <- <- <-.
Qed.

(** In tree order, the wholly contained children of a range start at or
    before the index where they end. *)
Lemma sides_in_order (ch : list Node) (sp ep : path) (so eo : nat)
    (kL fL fR kR : list Node) (lo hi : nat) :
  startSide ch sp so = (kL, fL, lo) ->
  endSide ch ep eo = (fR, kR, hi) ->
  pointLe sp so ep eo = true ->
  match sp, ep with i :: _, j :: _ => i <> j | _, _ => True end ->
  lo <= hi.
Proof.
  intros Hs He Hle Hne.
  assert (Hlo : match sp with [] => lo = so | i :: _ => lo <= S i end).
  { destruct sp as [| i r]; simpl in Hs.
    - by injection Hs as _ _ <-.
    - destruct (ch !! i); [destruct (splitAt r so n) |]; injection Hs as _ _ <-; lia. }
  assert (Hhi : match ep with [] => hi = eo | j :: _ => hi = j end).
  { destruct ep as [| j r]; simpl in He.
    - by injection He as _ _ <-.
    - destruct (ch !! j); [destruct (splitAt r eo n) |]; by injection He as _ _ <-. }
  destruct sp as [| i r], ep as [| j r']; simpl in Hle; subst.
  - by apply Nat.leb_le.
  - by apply Nat.leb_le.
  - apply Nat.ltb_lt in Hle. lia.
  - destruct (Nat.eqb_spec i j); [done |]. apply Nat.ltb_lt in Hle. lia.
Qed.

Lemma range_relative (root : Node) (r : Range) :
  let c := commonAncestorContainer r in
  startContainer r = c ++ drop (length c) (startContainer r)
  /\ endContainer r = c ++ drop (length c) (endContainer r)
  /\ pointLe (drop (length c) (startContainer r)) (startOffset r)
             (drop (length c) (endContainer r)) (endOffset r)
     = pointLe (startContainer r) (startOffset r) (endContainer r) (endOffset r)
  /\ match drop (length c) (startContainer r), drop (length c) (endContainer r) with
     | i :: _, j :: _ => i <> j
     | _, _ => True
     end.
Proof.
  repeat split.
  - apply commonPrefix_l.
  - apply commonPrefix_r.
  - symmetry. apply pointLe_commonPrefix.
  - apply commonPrefix_heads.
Qed.

Lemma isElement_modify_set (p : path) (root : Node) (t : string) (l : list Node) :
  isElement root = true -> isElement (modify p (fun _ => Elem t l) root) = true.
Proof. intros H. destruct p; [done |]. by destruct root. Qed.

(** The tree and the wrapper that [wrapContents] leaves for a valid range
    that is not collapsed: the wrapper is in the tree at the place
    returned, it holds the text the range had, and the text of the tree is
    unchanged. *)
Lemma wrapContents_valid (tagName : string) (root : Node) (r : Range) :
  validRange root r = true ->
  collapsed r = false ->
  exists frag,
    getNode (wrapContents root r tagName).2 (wrapContents root r tagName).1
      = Some (Elem (toUpperCase tagName) frag)
    /\ textOfList frag = toString root r
    /\ textContent (wrapContents root r tagName).1 = textContent root
    /\ isElement (wrapContents root r tagName).1 = true.
Proof.
  intros Hvalid Hc. unfold validRange in Hvalid.
  apply andb_prop in Hvalid as [Hvalid Hle]. apply andb_prop in Hvalid as [Hvalid Hend].
  apply andb_prop in Hvalid as [Hroot Hstart].
  destruct (range_relative root r) as (Hsp & Hep & Hrel & Hne).
  set (c := commonAncestorContainer r) in *. rewrite <- Hrel in Hle.
  assert (Hcv : is_Some (getNode c root)).
  { apply (getNode_prefix _ (drop (length c) (startContainer r))). rewrite <- Hsp.
    unfold validPoint in Hstart. by destruct (getNode (startContainer r) root). }
  destruct Hcv as [n Hn].
  destruct n as [s | t ch].
  - assert (Hs0 : drop (length c) (startContainer r) = []).
    { destruct (drop (length c) (startContainer r)) as [| i rest] eqn:E; [done |].
      unfold validPoint in Hstart. rewrite Hsp, getNode_app, Hn in Hstart. done. }
    assert (He0 : drop (length c) (endContainer r) = []).
    { destruct (drop (length c) (endContainer r)) as [| i rest] eqn:E; [done |].
      unfold validPoint in Hend. rewrite Hep, getNode_app, Hn in Hend. done. }
    rewrite Hs0, He0 in Hle. rewrite Hs0, app_nil_r in Hsp.
    unfold validPoint in Hstart. rewrite Hsp, Hn in Hstart.
    simpl in Hstart, Hle. apply Nat.leb_le in Hstart, Hle.
    assert (Hc0 : c <> []).
    { intros E. rewrite E in Hn. simpl in Hn. injection Hn as Hn. by rewrite Hn in Hroot. }
    pose proof Hn as Hn'. rewrite (path_snoc c Hc0) in Hn'.
    destruct (getNode_snoc_inv _ _ _ _ Hn') as (tp & chp & Hp & Hi).
    rewrite (wrapContents_in_text _ _ _ _ _ _ _ _ Hc (path_snoc c Hc0) Hp Hi).
    cbv zeta. cbn [fst snd].
    rewrite (strTake_take_app _ _ _ Hstart), (strDrop_take_app _ _ _ Hstart).
    exists [Text (strTake (endOffset r - startOffset r) (strDrop (startOffset r) s))].
    assert (Hlen : length (take (childIndex c) chp) = childIndex c).
    { apply length_take_le. apply lookup_lt_Some in Hi. lia. }
    split; [| split; [| split]].
    + rewrite (getNode_snoc _ _ _ tp
                 (take (childIndex c) chp
                  ++ [Text (strTake (startOffset r) s);
                      Elem (toUpperCase tagName)
                        [Text (strTake (endOffset r - startOffset r)
                                 (strDrop (startOffset r) s))];
                      Text (strDrop (endOffset r) s)]
                  ++ drop (S (childIndex c)) chp)).
      * rewrite lookup_app_r by lia. rewrite Hlen.
        replace (S (childIndex c) - childIndex c) with 1 by lia. reflexivity.
      * exact (getNode_modify _ (fun _ => _) _ _ Hp).
    + unfold toString, extractContents. fold c. by rewrite Hc, Hn.
    + apply (textContent_set_children _ _ _ _ _ Hp).
      rewrite <- (take_drop_middle _ _ _ Hi) at 3.
      rewrite !textOfList_app, !textOfList_cons, !textContent_Elem, !textOfList_cons.
      change (textOfList []) with "". cbn [textContent]. rewrite !str_app_nil_r.
      by rewrite str_three_parts.
    + by apply isElement_modify_set.
  - destruct (startSide ch (drop (length c) (startContainer r)) (startOffset r))
      as [[kL fL] lo] eqn:Hs.
    destruct (endSide ch (drop (length c) (endContainer r)) (endOffset r))
      as [[fR kR] hi] eqn:He.
    rewrite (wrapContents_in_element _ _ _ _ _ _ _ _ _ _ _ _ Hc eq_refl Hn Hs He).
    cbn [fst snd].
    exists (fL ++ take (hi - lo) (drop lo ch) ++ fR).
    split; [| split; [| split]].
    + rewrite (getNode_snoc _ _ _ t
                 (kL ++ Elem (toUpperCase tagName) (fL ++ take (hi - lo) (drop lo ch) ++ fR)
                     :: kR)).
      * by apply list_lookup_middle.
      * exact (getNode_modify _ (fun _ => _) _ _ Hn).
    + unfold toString, extractContents. fold c. rewrite Hc, Hn.
      unfold extractFrom. by rewrite Hs, He.
    + apply (textContent_set_children _ _ _ _ _ Hn).
      pose proof (sides_in_order _ _ _ _ _ _ _ _ _ _ _ Hs He Hle Hne) as Hord.
      rewrite textOfList_app, textOfList_cons, textContent_Elem, !textOfList_app.
      rewrite !str_app_assoc, (endSide_text _ _ _ _ _ _ He).
      rewrite <- !str_app_assoc, (startSide_text _ _ _ _ _ _ Hs).
      rewrite <- !textOfList_app, take_take_drop.
      replace (lo + (hi - lo)) with hi by lia. by rewrite take_drop.
    + by apply isElement_modify_set.
Qed.

Lemma applyStyle_body (tagName : string) (range : Range) (st : State) :
  applyStyle tagName range st
  = mkState (wrapContents (body st) range tagName).1
            (Some (selectNodeContents (wrapContents (body st) range tagName).1
                                      (wrapContents (body st) range tagName).2)).
Proof.
  unfold applyStyle, surroundContents.
  destruct (partiallyContainsElement _ _);
    by destruct (wrapContents (body st) range tagName).
Qed.

Lemma exactlyCovered_Some (root : Node) (range : Range) (existing : option path)
    (e : path) :
  exactlyCovered root range existing = Some e ->
  existing = Some e
  /\ toString root range = textContent (default (Text "") (getNode e root)).
Proof.
  unfold exactlyCovered. destruct existing as [e' |]; [| done].
  destruct (String.eqb_spec (toString root range)
              (textContent (default (Text "") (getNode e' root)))); [| done].
  by intros [= <-].
Qed.

(** X3. For a valid selection, [applyInlineStyle] never changes the text
    of the document, whether it returns at once, unwraps an element or
    wraps the range (also when the range cuts through elements). *)
Theorem applyInlineStyle_keeps_text (tagName : string) (st : State) (r : Range) :
  getSelectionAndRange st = Some r ->
  validRange (body st) r = true ->
  textContent (body (applyInlineStyle tagName st)) = textContent (body st).
Proof.
  intros Hsel Hvalid. unfold applyInlineStyle, isRangeEmpty. rewrite Hsel.
  destruct (collapsed r) eqn:Hc; [done |].
  destruct (exactlyCovered _ _ _) as [e |] eqn:Hcov.
  - destruct (exactlyCovered_Some _ _ _ _ Hcov) as [He _].
    destruct (hasParentWithTag_Some _ _ _ _ He) as (_ & _ & kids & Hkids).
    assert (Hb : body (removeStyle e st) = unwrapElement e (body st)).
    { unfold removeStyle. by destruct (findTextChild _ _). }
    rewrite Hb. by apply (textContent_unwrapElement _ _ _ _ Hkids).
  - rewrite applyStyle_body. cbn [body].
    by destruct (wrapContents_valid tagName _ _ Hvalid Hc) as (frag & _ & _ & Htext & _).
Qed.

Lemma applyInlineStyle_keeps_text_witness :
  textContent (body (applyInlineStyle "strong" acrossEm)) = textContent (body acrossEm).
Proof.
  apply (applyInlineStyle_keeps_text "strong" acrossEm (mkRange [0; 0] 0 [0; 1; 0] 1));
    reflexivity.
Defined.

Lemma pointLe_same (p : path) (o o' : nat) : pointLe p o p o' = (o <=? o').
Proof. induction p as [| i p IH]; simpl; [done |]. by rewrite Nat.eqb_refl. Qed.

Lemma validRange_contents (root : Node) (w : path) (n : Node) :
  isElement root = true -> getNode w root = Some n ->
  validRange root (selectNodeContents root w) = true.
Proof.
  intros Hroot Hn. unfold validRange, selectNodeContents, validPoint. simpl.
  rewrite Hroot, Hn, pointLe_same. simpl. by rewrite Nat.leb_refl.
Qed.

Lemma toString_selectNodeContents (root : Node) (w : path) (T : string)
    (frag : list Node) :
  getNode w root = Some (Elem T frag) ->
  toString root (selectNodeContents root w) = textOfList frag.
Proof.
  intros Hn. unfold selectNodeContents. rewrite Hn. simpl from_option.
  unfold toString, extractContents.
  destruct (collapsed (mkRange w 0 w (length frag))) eqn:Hc.
  - unfold collapsed in Hc. simpl in Hc. apply andb_prop in Hc as [_ Hc].
    destruct frag; [done | done].
  - unfold commonAncestorContainer. simpl startContainer. simpl endContainer.
    rewrite commonPrefix_same, Hn, drop_all. simpl.
    by rewrite Nat.sub_0_r, firstn_all, app_nil_r.
Qed.

(** X4. When [applyInlineStyle] applies the style to a valid selection
    that is not collapsed, the selection it leaves is a valid range of the
    new tree, the contents of the new element, and it selects the very
    text that was selected. *)
Theorem applyInlineStyle_selects_same_text (tagName : string) (st : State) (r : Range) :
  getSelectionAndRange st = Some r ->
  validRange (body st) r = true ->
  collapsed r = false ->
  exactlyCovered (body st) r
    (hasParentWithTag (body st) (commonAncestorContainer r) tagName) = None ->
  exists r' w frag,
    selection (applyInlineStyle tagName st) = Some r'
    /\ getNode w (body (applyInlineStyle tagName st))
       = Some (Elem (toUpperCase tagName) frag)
    /\ r' = mkRange w 0 w (length frag)
    /\ validRange (body (applyInlineStyle tagName st)) r' = true
    /\ toString (body (applyInlineStyle tagName st)) r' = toString (body st) r.
Proof.
  intros Hsel Hvalid Hc Hcov.
  unfold applyInlineStyle, isRangeEmpty. rewrite Hsel, Hc, Hcov, applyStyle_body.
  cbn [body selection].
  destruct (wrapContents_valid tagName _ _ Hvalid Hc) as (frag & Hw & Htext & _ & Hel).
  exists (selectNodeContents (wrapContents (body st) r tagName).1
            (wrapContents (body st) r tagName).2),
         (wrapContents (body st) r tagName).2, frag.
  split; [done |]. split; [exact Hw |]. split.
  - unfold selectNodeContents. by rewrite Hw.
  - split; [by apply (validRange_contents _ _ _ Hel Hw) |].
    by rewrite (toString_selectNodeContents _ _ _ _ Hw).
Qed.

Lemma applyInlineStyle_selects_same_text_witness :
  exists r' w frag,
    selection (applyInlineStyle "strong" acrossEm) = Some r'
    /\ getNode w (body (applyInlineStyle "strong" acrossEm)) = Some (Elem "STRONG" frag)
    /\ r' = mkRange w 0 w (length frag)
    /\ validRange (body (applyInlineStyle "strong" acrossEm)) r' = true
    /\ toString (body (applyInlineStyle "strong" acrossEm)) r'
       = toString (body acrossEm) (mkRange [0; 0] 0 [0; 1; 0] 1).
Proof.
  apply (applyInlineStyle_selects_same_text "strong" acrossEm (mkRange [0; 0] 0 [0; 1; 0] 1));
    reflexivity.
Defined.

(** ** Inline styles: two toggles in a row *)






Lemma climbToTag_S (fuel : nat) (root : Node) (current : path) (TAG : string) :
  current <> [] ->
  climbToTag (S fuel) root current TAG
  = match getNode current root with
    | Some (Elem t _) =>
        if String.eqb t TAG then Some current
        else climbToTag fuel root (parentPath current) TAG
    | _ => climbToTag fuel root (parentPath current) TAG
    end.
Proof. by destruct current. Qed.









(** ** Block formats and lists: what is touched and what is not *)

Lemma replaceWith_cons (i : nat) (b : path) (new : Node) (t : string) (ch : list Node) :
  replaceWith (i :: b) new (Elem t ch)
  = Elem t (match b with
            | [] => <[i := new]> ch
            | _ => alter (replaceWith b new) i ch
            end).
Proof. destruct b as [| j b]; reflexivity. Qed.

Lemma replaceWith_cons_deep (i : nat) (b : path) (new : Node) (t : string)
    (ch : list Node) :
  b <> [] ->
  replaceWith (i :: b) new (Elem t ch) = Elem t (alter (replaceWith b new) i ch).
Proof. intros H. rewrite replaceWith_cons. by destruct b. Qed.

Lemma replaceWith_Text (b : path) (new : Node) (s : string) :
  replaceWith b new (Text s) = Text s.
Proof.
  unfold replaceWith. destruct b as [| i b]; [done |].
  unfold modifyChildren. by destruct (parentPath (i :: b)).
Qed.

(** Replacing a node leaves every place outside of it as it was. *)
Lemma getNode_replaceWith_diverge (b q : path) (new root : Node) :
  diverge b q = true -> getNode q (replaceWith b new root) = getNode q root.
Proof.
  revert q root. induction b as [| i b IH]; intros q root Hd; [done |].
  destruct q as [| j q]; [done |]. simpl in Hd.
  destruct root as [s | t ch]; [by rewrite replaceWith_Text |].
  rewrite replaceWith_cons. simpl.
  destruct (Nat.eqb_spec i j) as [<- | Hne].
  - destruct b as [| k b]; [done |].
    rewrite list_lookup_alter_eq. destruct (ch !! i) as [c |]; [| done].
    simpl. by apply IH.
  - destruct b as [| k b].
    + by rewrite list_lookup_insert_ne.
    + by rewrite list_lookup_alter_ne.
Qed.

Lemma isElement_replaceWith (b : path) (new root : Node) :
  isElement (replaceWith b new root) = isElement root.
Proof.
  destruct root as [s | t ch]; [by rewrite replaceWith_Text |].
  destruct b as [| i b]; [done |]. by rewrite replaceWith_cons.
Qed.

Lemma getNode_isElement_root (b : path) (root n : Node) :
  b <> [] -> getNode b root = Some n -> isElement root = true.
Proof. destruct b as [| i b]; [done |]. by destruct root. Qed.

Lemma validRange_collapsed_end (root : Node) (b : path) (t : string) (ch : list Node) :
  isElement root = true -> getNode b root = Some (Elem t ch) ->
  validRange root (mkRange b (length ch) b (length ch)) = true.
Proof.
  intros Hroot Hn. unfold validRange, validPoint. simpl.
  rewrite Hroot, Hn, pointLe_same. simpl. by rewrite Nat.leb_refl.
Qed.

Section Touched.

Variable parseHTML : string -> string -> list Node.

Variable innerHTML : list Node -> string.

(** X5. When a block is found, [applyBlockFormat] changes that block and
    nothing else: the place of the block holds the new block, whose
    children are the nodes read from the markup of the old children;
    every place outside the block holds the node it held; the selection
    left is a valid collapsed range at the end of the new block, after
    its last child.  The text of the document is unchanged where the
    copy has the text of the old children. *)
Theorem applyBlockFormat_only_the_block (tagName : string) (st : State) (range : Range)
    (b : path) (t : string) (ch : list Node) :
  getSelectionAndRange st = Some range ->
  findParentBlock (body st) (commonAncestorContainer range) = Some b ->
  getNode b (body st) = Some (Elem t ch) ->
  let st' := applyBlockFormat parseHTML innerHTML tagName st in
  let new := parseHTML (toggledTag t tagName) (innerHTML ch) in
  getNode b (body st') = Some (Elem (toggledTag t tagName) new)
  /\ (forall q, diverge b q = true -> getNode q (body st') = getNode q (body st))
  /\ selection st' = Some (mkRange b (length new) b (length new))
  /\ validRange (body st') (mkRange b (length new) b (length new)) = true
  /\ (textOfList new = textOfList ch -> textContent (body st') = textContent (body st)).
Proof.
  intros Hsel Hb Hn.
  destruct (findParentBlock_Some _ _ _ Hb) as (Hne & _).
  cbv zeta.
  rewrite (applyBlockFormat_found parseHTML innerHTML tagName st range b t ch Hsel Hb Hn).
  cbn [body selection].
  set (new := parseHTML (toggledTag t tagName) (innerHTML ch)).
  assert (Hget : getNode b (replaceWith b (Elem (toggledTag t tagName) new) (body st))
                 = Some (Elem (toggledTag t tagName) new)).
  { apply replaceWith_get; [done | by rewrite Hn]. }
  split; [exact Hget |]. split; [| split; [done | split]].
  - intros q Hq. by apply getNode_replaceWith_diverge.
  - apply (validRange_collapsed_end _ _ (toggledTag t tagName)); [| exact Hget].
    rewrite isElement_replaceWith. by apply (getNode_isElement_root _ _ _ Hne Hn).
  - intros Htext. apply (textContent_replaceWith _ _ _ _ Hne Hn).
    by rewrite !textContent_Elem.
Qed.

End Touched.

Lemma applyBlockFormat_only_the_block_witness :
  let st' := applyBlockFormat parsePlain plainMarkup "h2" headingAndParagraph in
  getNode [0] (body st') = Some (Elem "P" [Text "title"])
  /\ (forall q, diverge [0] q = true ->
        getNode q (body st') = getNode q (body headingAndParagraph))
  /\ selection st' = Some (mkRange [0] 1 [0] 1)
  /\ validRange (body st') (mkRange [0] 1 [0] 1) = true
  /\ textContent (body st') = textContent (body headingAndParagraph).
Proof.
  destruct (applyBlockFormat_only_the_block parsePlain plainMarkup "h2" headingAndParagraph
              (mkRange [0; 0] 2 [0; 0] 2) [0] "H2" [Text "title"] eq_refl eq_refl eq_refl)
    as (H1 & H2 & H3 & H4 & H5).
  exact (conj H1 (conj H2 (conj H3 (conj H4 (H5 eq_refl))))).
Defined.

Lemma modify_id (p : path) (f : Node -> Node) (root n : Node) :
  getNode p root = Some n -> f n = n -> modify p f root = root.
Proof.
  revert root. induction p as [| i p IH]; intros root; simpl.
  - by intros [= ->].
  - destruct root as [s | t ch]; [done |].
    destruct (ch !! i) as [c |] eqn:E; [| done]. intros Hn Hf. f_equal.
    rewrite <- (list_alter_id id ch i) at 2 by done.
    apply list_alter_ext; [| done]. intros x Hx. assert (x = c) as -> by congruence.
    by apply IH.
Qed.

Lemma replaceWith_same (b : path) (root n : Node) :
  getNode b root = Some n -> replaceWith b n root = root.
Proof.
  intros Hn. destruct (decide (b = [])) as [-> | Hne]; [done |].
  rewrite (path_snoc b Hne) in Hn |- *.
  destruct (getNode_snoc_inv _ _ _ _ Hn) as (t & ch & Hp & Hi).
  rewrite replaceWith_snoc. unfold modifyChildren.
  apply (modify_id _ _ _ _ Hp). by rewrite list_insert_id.
Qed.

Lemma replaceWith_twice (b : path) (x y root : Node) :
  replaceWith b x (replaceWith b y root) = replaceWith b x root.
Proof.
  destruct (decide (b = [])) as [-> | Hne]; [done |].
  rewrite (path_snoc b Hne), !replaceWith_snoc. unfold modifyChildren.
  rewrite modify_modify. apply modify_ext_all.
  intros [s | t ch]; [done |]. by rewrite list_insert_insert_eq.
Qed.

(** Above a replaced node, the elements keep their tags. *)
Lemma getNode_above_replaced (q r : path) (new root : Node) (T : string)
    (ch' : list Node) :
  r <> [] ->
  getNode q (replaceWith (q ++ r) new root) = Some (Elem T ch') ->
  exists ch, getNode q root = Some (Elem T ch).
Proof.
  revert root. induction q as [| j q IH]; intros root Hr.
  - destruct root as [s | t ch]; [by rewrite replaceWith_Text |].
    destruct r as [| i r]; [done |]. simpl app. rewrite replaceWith_cons.
    intros [= <- _]. by exists ch.
  - destruct root as [s | t ch]; [by rewrite replaceWith_Text |].
    change ((j :: q) ++ r) with (j :: (q ++ r)).
    rewrite replaceWith_cons_deep by (by destruct q, r).
    simpl. rewrite list_lookup_alter_eq.
    destruct (ch !! j) as [c |]; [| done]. simpl. by apply IH.
Qed.

Lemma climbToTag_complete (fuel : nat) (root : Node) (current : path) (TAG : string) :
  (forall q r ch, current = q ++ r -> q <> [] -> getNode q root <> Some (Elem TAG ch)) ->
  climbToTag fuel root current TAG = None.
Proof.
  revert current. induction fuel as [| fuel IH]; intros current H; [done |].
  destruct (decide (current = [])) as [-> | Hne]; [done |].
  rewrite climbToTag_S by done.
  assert (Hup : climbToTag fuel root (parentPath current) TAG = None).
  { apply IH. intros q r ch Hq Hqne.
    apply (H q (r ++ [childIndex current]) ch); [| done].
    rewrite app_assoc, <- Hq. by apply path_snoc. }
  destruct (getNode current root) as [[s | t ch] |] eqn:E; try done.
  destruct (String.eqb_spec t TAG) as [-> | _]; [| done].
  exfalso. apply (H current [] ch); [by rewrite app_nil_r | done | done].
Qed.

Lemma climbToTag_step (fuel : nat) (root : Node) (current : path) (TAG t : string)
    (ch : list Node) :
  current <> [] -> getNode current root = Some (Elem t ch) ->
  climbToTag (S fuel) root current TAG
  = if String.eqb t TAG then Some current
    else climbToTag fuel root (parentPath current) TAG.
Proof. intros Hne Hn. by rewrite climbToTag_S, Hn. Qed.

Section ListRoundTrip.

Variable parseHTML : string -> string -> list Node.

Variable innerHTML : list Node -> string.

(** The state [toggleList] leaves when it creates a list around a block. *)
Lemma createList_found (listType : string) (st : State) (range : Range)
    (b : path) (t : string) (ch : list Node) :
  findParentBlock (body st) (commonAncestorContainer range) = Some b ->
  getNode b (body st) = Some (Elem t ch) ->
  createList parseHTML innerHTML listType range st
  = mkState (replaceWith b (Elem (toUpperCase listType)
                              [Elem "LI" (parseHTML "LI" (innerHTML ch))]) (body st))
            (Some (mkRange (b ++ [0]) (length (parseHTML "LI" (innerHTML ch)))
                           (b ++ [0]) (length (parseHTML "LI" (innerHTML ch))))).
Proof.
  intros Hb Hn.
  destruct (findParentBlock_Some _ _ _ Hb) as (Hne & _ & t' & ch' & Hn' & Hblock).
  assert (t' = t /\ ch' = ch) as [-> ->] by (split; congruence).
  unfold createList. rewrite Hb, Hn. cbn [from_option isBlockElement children].
  rewrite Hblock. unfold selectNodeContents, collapseToEnd.
  rewrite getNode_app, replaceWith_get; [done | done | by rewrite Hn].
Qed.

(** The state [toggleList] leaves when it replaces the list found, or the
    item found, by the paragraph of the item. *)
Lemma removeFromList_list (st : State) (range : Range) (l li : path)
    (content : list Node) :
  hasParentWithTag (body st) (commonAncestorContainer range) "LI" = Some li ->
  getNode li (body st) = Some (Elem "LI" content) ->
  childElementCount (default (Text "") (getNode l (body st))) = 1 ->
  l <> [] -> is_Some (getNode l (body st)) ->
  removeFromList parseHTML innerHTML l range st
  = mkState (replaceWith l (Elem "P" (parseHTML "P" (innerHTML content))) (body st))
            (Some (mkRange l (length (parseHTML "P" (innerHTML content)))
                           l (length (parseHTML "P" (innerHTML content))))).
Proof.
  intros Hli Hcontent Hone Hne Hsome. unfold removeFromList.
  rewrite Hli, Hcontent, Hone. cbn [from_option children Nat.eqb].
  unfold selectNodeContents, collapseToEnd. by rewrite replaceWith_get.
Qed.

Lemma removeFromList_item (st : State) (range : Range) (l li : path)
    (content : list Node) :
  hasParentWithTag (body st) (commonAncestorContainer range) "LI" = Some li ->
  getNode li (body st) = Some (Elem "LI" content) ->
  childElementCount (default (Text "") (getNode l (body st))) <> 1 ->
  li <> [] ->
  removeFromList parseHTML innerHTML l range st
  = mkState (replaceWith li (Elem "P" (parseHTML "P" (innerHTML content))) (body st))
            (Some (mkRange li (length (parseHTML "P" (innerHTML content)))
                           li (length (parseHTML "P" (innerHTML content))))).
Proof.
  intros Hli Hcontent Hmany Hne. unfold removeFromList.
  rewrite Hli, Hcontent. cbn [from_option children].
  destruct (Nat.eqb_spec (childElementCount (default (Text "") (getNode l (body st)))) 1)
    as [E | _]; [done |].
  unfold selectNodeContents, collapseToEnd.
  rewrite replaceWith_get; [done | done | by rewrite Hcontent].
Qed.


(** C5 (as the code has it). Inside a list item, when the list found has
    one element child, the list is replaced, where it stood, by one [P]:
    the node at the place of the list is that paragraph, not a list, and
    every place outside the list holds the node it held.  The paragraph
    holds the nodes read from the markup of the children of the nearest
    [LI] above the selection; they are those children where the markup
    reads back as them. *)
Theorem toggleList_single_item (listType : string) (st : State) (range : Range)
    (l li : path) :
  getSelectionAndRange st = Some range ->
  findList (body st) (commonAncestorContainer range) = Some l ->
  hasParentWithTag (body st) (commonAncestorContainer range) "LI" = Some li ->
  childElementCount (default (Text "") (getNode l (body st))) = 1 ->
  let st' := toggleList parseHTML innerHTML listType st in
  exists content,
    getNode li (body st) = Some (Elem "LI" content)
    /\ body st' = replaceWith l (Elem "P" (parseHTML "P" (innerHTML content))) (body st)
    /\ getNode l (body st') = Some (Elem "P" (parseHTML "P" (innerHTML content)))
    /\ (forall q, diverge l q = true -> getNode q (body st') = getNode q (body st))
    /\ (parseHTML "P" (innerHTML content) = content ->
        getNode l (body st') = Some (Elem "P" content)).
Proof.
  intros Hsel Hl Hli Hone.
  destruct (hasParentWithTag_Some _ _ _ _ Hli) as (_ & _ & content & Hcontent).
  change (toUpperCase "LI") with "LI" in Hcontent.
  destruct (findList_Some _ _ _ Hl) as (Hne & _ & t & ch & Hlist & _).
  exists content. split; [exact Hcontent |].
  unfold toggleList. rewrite Hsel, Hl.
  rewrite (removeFromList_list st range l li content Hli Hcontent Hone Hne);
    [| by rewrite Hlist].
  cbn [body].
  assert (Hget : getNode l (replaceWith l (Elem "P" (parseHTML "P" (innerHTML content)))
                              (body st))
                 = Some (Elem "P" (parseHTML "P" (innerHTML content)))).
  { apply replaceWith_get; [done | by rewrite Hlist]. }
  split; [done |]. split; [exact Hget |]. split.
  - intros q Hq. by apply getNode_replaceWith_diverge.
  - intros Hsame. by rewrite Hget, Hsame.
Qed.

(** X6. Outside of any list and with a block found, [toggleList] puts, in
    the place of the block, a list of the requested kind whose one item
    holds the nodes read from the markup of the children of the block;
    the tag of the block is not kept.  Every place outside the block
    holds the node it held, and the selection left is a valid collapsed
    range at the end of the item.  The text of the document is unchanged
    where the copy has the text of the children. *)
Theorem toggleList_wraps_block (listType : string) (st : State) (range : Range)
    (b : path) (t : string) (ch : list Node) :
  getSelectionAndRange st = Some range ->
  findList (body st) (commonAncestorContainer range) = None ->
  findParentBlock (body st) (commonAncestorContainer range) = Some b ->
  getNode b (body st) = Some (Elem t ch) ->
  let st' := toggleList parseHTML innerHTML listType st in
  let new := parseHTML "LI" (innerHTML ch) in
  let n := length new in
  getNode b (body st') = Some (Elem (toUpperCase listType) [Elem "LI" new])
  /\ (forall q, diverge b q = true -> getNode q (body st') = getNode q (body st))
  /\ selection st' = Some (mkRange (b ++ [0]) n (b ++ [0]) n)
  /\ validRange (body st') (mkRange (b ++ [0]) n (b ++ [0]) n) = true
  /\ (textOfList new = textOfList ch -> textContent (body st') = textContent (body st)).
Proof.
  intros Hsel Hnone Hb Hn.
  destruct (findParentBlock_Some _ _ _ Hb) as (Hne & _).
  unfold toggleList. rewrite Hsel, Hnone.
  rewrite (createList_found listType st range b t ch Hb Hn). cbn [body selection].
  assert (Hget : getNode b (replaceWith b (Elem (toUpperCase listType)
                                             [Elem "LI" (parseHTML "LI" (innerHTML ch))])
                              (body st))
                 = Some (Elem (toUpperCase listType)
                           [Elem "LI" (parseHTML "LI" (innerHTML ch))])).
  { apply replaceWith_get; [done | by rewrite Hn]. }
  split; [exact Hget |]. split; [| split; [done | split]].
  - intros q Hq. by apply getNode_replaceWith_diverge.
  - apply (validRange_collapsed_end _ _ "LI").
    + rewrite isElement_replaceWith. by apply (getNode_isElement_root _ _ _ Hne Hn).
    + by rewrite getNode_app, Hget.
  - intros Htext. apply (textContent_replaceWith _ _ _ _ Hne Hn).
    rewrite !textContent_Elem, textOfList_cons, textContent_Elem.
    change (textOfList []) with "". by rewrite str_app_nil_r.
Qed.

(** X7. Toggling a list on around a block and then toggling again, with
    the selection the first toggle leaves and whatever kind is asked the
    second time, leaves a [P] in the place of the block, with the nodes
    of two copies through [innerHTML] of the children of the block, the
    first read in a list item and the second in a paragraph.  Where the
    markup of the children reads back as them in both, a paragraph
    comes back exactly; a heading or a blockquote comes back as a
    paragraph. *)
Theorem toggleList_on_then_off (listType otherType : string) (st : State)
    (range : Range) (b : path) (t : string) (ch : list Node) :
  getSelectionAndRange st = Some range ->
  findList (body st) (commonAncestorContainer range) = None ->
  findParentBlock (body st) (commonAncestorContainer range) = Some b ->
  getNode b (body st) = Some (Elem t ch) ->
  isListTag (toUpperCase listType) = true ->
  let copy := fun T children => parseHTML T (innerHTML children) in
  let twice :=
    toggleList parseHTML innerHTML otherType
      (toggleList parseHTML innerHTML listType st) in
  body twice = replaceWith b (Elem "P" (copy "P" (copy "LI" ch))) (body st)
  /\ (copy "LI" ch = ch -> copy "P" ch = ch ->
      body twice = replaceWith b (Elem "P" ch) (body st))
  /\ (copy "LI" ch = ch -> copy "P" ch = ch -> t = "P" -> body twice = body st).
Proof.
  intros Hsel Hnone Hb Hn Hlist copy.
  destruct (findParentBlock_Some _ _ _ Hb) as (Hne & [rb Hrb] & _).
  set (L := toUpperCase listType) in *.
  set (item := Elem "LI" (copy "LI" ch)).
  set (root1 := replaceWith b (Elem L [item]) (body st)).
  set (k := length (copy "LI" ch)).
  assert (H1 : toggleList parseHTML innerHTML listType st
               = mkState root1 (Some (mkRange (b ++ [0]) k (b ++ [0]) k))).
  { unfold toggleList. rewrite Hsel, Hnone.
    by rewrite (createList_found listType st range b t ch Hb Hn). }
  assert (Hb1 : getNode b root1 = Some (Elem L [item])).
  { apply replaceWith_get; [done | by rewrite Hn]. }
  assert (Hitem1 : getNode (b ++ [0]) root1 = Some item).
  { by rewrite getNode_app, Hb1. }
  assert (Habove : forall TAG, isListTag TAG = true ->
            forall fuel, climbToTag fuel root1 (parentPath b) TAG = None).
  { intros TAG HTAG fuel. apply climbToTag_complete. intros q r ch0 Hq Hqne Hq1.
    assert (Hbq : b = q ++ (r ++ [childIndex b])).
    { rewrite app_assoc, <- Hq. by apply path_snoc. }
    unfold root1 in Hq1. rewrite Hbq in Hq1 at 1.
    assert (Hr : r ++ [childIndex b] <> []) by (by destruct r).
    destruct (getNode_above_replaced q _ _ _ _ _ Hr Hq1) as [ch1 Hq0].
    assert (Hcac : commonAncestorContainer range = q ++ ((r ++ [childIndex b]) ++ rb)).
    { by rewrite app_assoc, <- Hbq. }
    by rewrite (findList_None _ _ _ _ _ _ Hnone Hcac Hqne Hq0) in HTAG. }
  assert (Hclimb : forall TAG, isListTag TAG = true ->
            climbToTag (S (length (b ++ [0]))) root1 (b ++ [0]) TAG
            = if String.eqb L TAG then Some b else None).
  { intros TAG HTAG.
    rewrite (climbToTag_step _ _ _ _ "LI" (copy "LI" ch)); [| by destruct b | done].
    assert (HliTAG : String.eqb "LI" TAG = false).
    { unfold isListTag in HTAG. apply orb_prop in HTAG as [H | H];
        apply String.eqb_eq in H; by subst TAG. }
    rewrite HliTAG, parentPath_snoc, length_app. simpl length.
    rewrite Nat.add_1_r.
    rewrite (climbToTag_step _ _ _ _ L [item]); [| done | done].
    destruct (String.eqb L TAG); [done | by apply Habove]. }
  assert (Hfind : findList root1 (b ++ [0]) = Some b).
  { unfold findList, hasParentWithTag.
    change (toUpperCase "UL") with "UL". change (toUpperCase "OL") with "OL".
    rewrite (Hclimb "UL" eq_refl), (Hclimb "OL" eq_refl).
    unfold isListTag in Hlist. apply orb_prop in Hlist as [H | H];
      apply String.eqb_eq in H; by rewrite H. }
  assert (Hli : hasParentWithTag root1 (b ++ [0]) "LI" = Some (b ++ [0])).
  { unfold hasParentWithTag. change (toUpperCase "LI") with "LI".
    by rewrite (climbToTag_step _ _ _ _ "LI" (copy "LI" ch));
      [| by destruct b | done]. }
  assert (H2 : body (toggleList parseHTML innerHTML otherType
                       (mkState root1 (Some (mkRange (b ++ [0]) k (b ++ [0]) k))))
               = replaceWith b (Elem "P" (copy "P" (copy "LI" ch))) (body st)).
  { unfold toggleList. cbn [getSelectionAndRange selection body].
    unfold commonAncestorContainer. cbn [startContainer endContainer].
    rewrite commonPrefix_same, Hfind. unfold removeFromList. cbn [body].
    unfold commonAncestorContainer. cbn [startContainer endContainer].
    rewrite commonPrefix_same, Hli, Hitem1, Hb1. cbn [from_option default children].
    change (childElementCount (Elem L [item]) =? 1) with true. cbv iota.
    cbn [body]. unfold root1. rewrite replaceWith_twice. by unfold item. }
  cbv zeta. rewrite H1, H2. split; [done |].
  assert (Hsame : copy "LI" ch = ch -> copy "P" ch = ch ->
            replaceWith b (Elem "P" (copy "P" (copy "LI" ch))) (body st)
            = replaceWith b (Elem "P" ch) (body st)).
  { intros E1 E2. by rewrite E1, E2. }
  split; [exact Hsame |].
  intros E1 E2 ->. rewrite (Hsame E1 E2). by apply replaceWith_same.
Qed.

(** X8. Inside a list item, when the list found does not have exactly
    one element child, [toggleList] changes the item and nothing else,
    wherever the item is below the list: the place of the item holds a
    paragraph with the nodes read from the markup of the children of the
    item, every place outside the item holds the node it held, and the
    selection left is a valid collapsed range at the end of that
    paragraph, after its last child.  The text of the document is
    unchanged where the copy has the text of the children. *)
Theorem toggleList_only_the_item (listType : string) (st : State) (range : Range)
    (l li : path) (content : list Node) :
  getSelectionAndRange st = Some range ->
  findList (body st) (commonAncestorContainer range) = Some l ->
  hasParentWithTag (body st) (commonAncestorContainer range) "LI" = Some li ->
  getNode li (body st) = Some (Elem "LI" content) ->
  childElementCount (default (Text "") (getNode l (body st))) <> 1 ->
  let st' := toggleList parseHTML innerHTML listType st in
  let new := parseHTML "P" (innerHTML content) in
  getNode li (body st') = Some (Elem "P" new)
  /\ (forall q, diverge li q = true -> getNode q (body st') = getNode q (body st))
  /\ selection st' = Some (mkRange li (length new) li (length new))
  /\ validRange (body st') (mkRange li (length new) li (length new)) = true
  /\ (textOfList new = textOfList content ->
      textContent (body st') = textContent (body st)).
Proof.
  intros Hsel Hl Hli Hcontent Hmany.
  destruct (hasParentWithTag_Some _ _ _ _ Hli) as (Hne & _).
  unfold toggleList. rewrite Hsel, Hl.
  rewrite (removeFromList_item st range l li content Hli Hcontent Hmany Hne).
  cbn [body selection].
  assert (Hget : getNode li (replaceWith li (Elem "P" (parseHTML "P" (innerHTML content)))
                               (body st))
                 = Some (Elem "P" (parseHTML "P" (innerHTML content)))).
  { apply replaceWith_get; [done | by rewrite Hcontent]. }
  split; [exact Hget |]. split; [| split; [done | split]].
  - intros q Hq. by apply getNode_replaceWith_diverge.
  - apply (validRange_collapsed_end _ _ "P"); [| exact Hget].
    rewrite isElement_replaceWith. by apply (getNode_isElement_root _ _ _ Hne Hcontent).
  - intros Htext. apply (textContent_replaceWith _ _ _ _ Hne Hcontent).
    by rewrite !textContent_Elem.
Qed.

End ListRoundTrip.



Lemma toggleList_single_item_witness :
  let st' := toggleList parsePlain plainMarkup "ol" cursorInA in
  body st' = editor [Elem "P" [Text "A"]]
  /\ getNode [0] (body st') = Some (Elem "P" [Text "A"])
  /\ (forall q, diverge [0] q = true -> getNode q (body st') = getNode q (body cursorInA)).
Proof.
  destruct (toggleList_single_item parsePlain plainMarkup "ol" cursorInA
              (mkRange [0; 0; 0] 1 [0; 0; 0] 1) [0] [0; 0]
              eq_refl eq_refl eq_refl eq_refl)
    as (content & Hc & Hbody & Hget & Hframe & _).
  injection Hc as <-. exact (conj Hbody (conj Hget Hframe)).
Defined.

(** C5 fails as stated, in three ways.  In [nestedLists] the selection is
    inside a [UL] that has exactly one item, whose content is an [OL] of
    two items: the [UL] is replaced by a paragraph that holds the content
    of the inner item only, not the content of its own item.  In
    [innerSingle] the selection is inside an [OL] that has exactly one
    item; the list found is the [UL] above it, which has two items: the
    [OL] is not removed, and the paragraph is put inside it.  In
    [itemSelected] the one item of the list is selected from the list,
    with no item above the range: nothing is changed. *)
Lemma toggleList_single_item_counterexample :
  (getNode [0] (body nestedLists)
   = Some (Elem "UL" [Elem "LI" [Elem "OL" [Elem "LI" [Text "x"]; Elem "LI" [Text "z"]]]])
   /\ getNode [0] (body (toggleList parsePlain plainMarkup "ul" nestedLists))
      = Some (Elem "P" [Text "x"])
   /\ getNode [0] (body (toggleList parsePlain plainMarkup "ul" nestedLists))
      <> Some (Elem "P" [Elem "OL" [Elem "LI" [Text "x"]; Elem "LI" [Text "z"]]]))
  /\ (getNode [0; 1; 0] (body innerSingle) = Some (Elem "OL" [Elem "LI" [Text "x"]])
      /\ getNode [0; 1; 0] (body (toggleList parsePlain plainMarkup "ol" innerSingle))
         = Some (Elem "OL" [Elem "P" [Text "x"]]))
  /\ (getNode [0] (body itemSelected) = Some (Elem "UL" [Elem "LI" [Text "A"]])
      /\ getNode [0] (body (toggleList parsePlain plainMarkup "ul" itemSelected))
         = Some (Elem "UL" [Elem "LI" [Text "A"]])).
Proof. repeat split; (reflexivity || discriminate). Qed.

Lemma toggleList_wraps_block_witness :
  let st' := toggleList parsePlain plainMarkup "ol" cursorInHeading in
  getNode [0] (body st') = Some (Elem "OL" [Elem "LI" [Text "title"]])
  /\ (forall q, diverge [0] q = true -> getNode q (body st') = getNode q (body cursorInHeading))
  /\ selection st' = Some (mkRange [0; 0] 1 [0; 0] 1)
  /\ validRange (body st') (mkRange [0; 0] 1 [0; 0] 1) = true
  /\ textContent (body st') = textContent (body cursorInHeading).
Proof.
  destruct (toggleList_wraps_block parsePlain plainMarkup "ol" cursorInHeading
              (mkRange [0; 0] 2 [0; 0] 2) [0] "H2" [Text "title"]
              eq_refl eq_refl eq_refl eq_refl)
    as (H1 & H2 & H3 & H4 & H5).
  exact (conj H1 (conj H2 (conj H3 (conj H4 (H5 eq_refl))))).
Defined.

Lemma toggleList_on_then_off_witness :
  body (toggleList parsePlain plainMarkup "ul"
          (toggleList parsePlain plainMarkup "ol" cursorInParagraph))
  = body cursorInParagraph.
Proof.
  destruct (toggleList_on_then_off parsePlain plainMarkup "ol" "ul" cursorInParagraph
              (mkRange [0; 0; 0] 1 [0; 0; 0] 1) [0; 0] "P" [Text "one"]
              eq_refl eq_refl eq_refl eq_refl eq_refl) as (_ & _ & H).
  exact (H eq_refl eq_refl eq_refl).
Defined.

Lemma toggleList_only_the_item_witness :
  let st' := toggleList parsePlain plainMarkup "ul" cursorInB in
  getNode [0; 1] (body st') = Some (Elem "P" [Text "B"])
  /\ (forall q, diverge [0; 1] q = true -> getNode q (body st') = getNode q (body cursorInB))
  /\ selection st' = Some (mkRange [0; 1] 1 [0; 1] 1)
  /\ validRange (body st') (mkRange [0; 1] 1 [0; 1] 1) = true
  /\ textContent (body st') = textContent (body cursorInB).
Proof.
  destruct (toggleList_only_the_item parsePlain plainMarkup "ul" cursorInB
              (mkRange [0; 1; 0] 1 [0; 1; 0] 1) [0] [0; 1] [Text "B"]
              eq_refl eq_refl eq_refl eq_refl ltac:(vm_compute; lia))
    as (H1 & H2 & H3 & H4 & H5).
  exact (conj H1 (conj H2 (conj H3 (conj H4 (H5 eq_refl))))).
Defined.

(** X9. [unwrapElement] on an element: its children stand where it
    stood, in their order, between the siblings it had, and the text of
    the document is the same. *)
Theorem unwrapElement_in_place (root : Node) (p : path) (i : nat) (t tp : string)
    (kids ch : list Node) :
  getNode p root = Some (Elem tp ch) ->
  ch !! i = Some (Elem t kids) ->
  getNode p (unwrapElement (p ++ [i]) root)
  = Some (Elem tp (take i ch ++ kids ++ drop (S i) ch))
  /\ textContent (unwrapElement (p ++ [i]) root) = textContent root.
Proof.
  intros Hp Hi. split.
  - rewrite unwrapElement_snoc, (modifyChildren_get _ _ _ _ _ Hp). by rewrite Hi.
  - apply (textContent_unwrapElement _ _ t kids).
    by rewrite (getNode_snoc _ _ _ _ _ Hp).
Qed.

Lemma unwrapElement_in_place_witness :
  getNode [0] (unwrapElement [0; 1] (body plainThenBold))
  = Some (Elem "P" [Text "a"; Text "b"])
  /\ textContent (unwrapElement [0; 1] (body plainThenBold)) = textContent (body plainThenBold).
Proof.
  apply (unwrapElement_in_place (body plainThenBold) [0] 1 "STRONG" "P" [Text "b"]
           [Text "a"; Elem "STRONG" [Text "b"]]); reflexivity.
Defined.

(** ** The invariants of the data model *)

























Section Invariants.

Variable parseHTML : string -> string -> list Node.

Variable innerHTML : list Node -> string.





End Invariants.



(** * Properties of the utility and domain functions *)

(** ** Pipelines *)



(** ** Truncated texts *)

Lemma truncateText_short (text : string) (n : nat) :
  String.length text <= n -> truncateText text n = text.
Proof.
  intros H. unfold truncateText.
  by destruct (Nat.ltb_spec n (String.length text)); [lia |].
Qed.

Lemma truncateText_long (text : string) (n : nat) :
  n < String.length text -> truncateText text n = strTake n text +:+ "...".
Proof.
  intros H. unfold truncateText.
  by destruct (Nat.ltb_spec n (String.length text)); [| lia].
Qed.

Lemma truncateText_long_length (text : string) (n : nat) :
  n < String.length text -> String.length (truncateText text n) = n + 3.
Proof.
  intros H. rewrite truncateText_long, str_length_app, strTake_length by done.
  simpl. lia.
Qed.

(** X11. A truncated text has at most [maxLength + 3] characters, is at most
    two characters longer than the text, and starts with the same
    [maxLength] characters as the text. *)
Theorem truncateText_bounds (text : string) (maxLength : nat) :
  String.length (truncateText text maxLength) <= maxLength + 3
  /\ String.length (truncateText text maxLength) <= String.length text + 2
  /\ strTake maxLength (truncateText text maxLength) = strTake maxLength text.
Proof.
  destruct (Nat.lt_ge_cases maxLength (String.length text)) as [H | H].
  - rewrite truncateText_long_length by done. rewrite truncateText_long by done.
    split; [lia |]. split; [lia |]. apply strTake_take_app. lia.
  - rewrite truncateText_short by done. split; [lia |]. split; [lia | done].
Qed.

(** X12. Truncating a truncated text to the same length changes nothing,
    although the truncated text, with its three dots, is longer than
    [maxLength]. *)
Theorem truncateText_idempotent (text : string) (maxLength : nat) :
  truncateText (truncateText text maxLength) maxLength = truncateText text maxLength.
Proof.
  destruct (Nat.lt_ge_cases maxLength (String.length text)) as [H | H].
  - rewrite (truncateText_long (truncateText text maxLength)).
    + rewrite (truncateText_long text) by done. rewrite strTake_take_app; [done | lia].
    + rewrite truncateText_long_length by done. lia.
  - by rewrite !(truncateText_short text) by done.
Qed.

(** X13. A text that is one or two characters longer than [maxLength]
    comes out longer than it went in. *)
Theorem truncateText_grows (text : string) (maxLength : nat) :
  maxLength < String.length text -> String.length text < maxLength + 3 ->
  String.length text < String.length (truncateText text maxLength).
Proof. intros H1 H2. rewrite truncateText_long_length by done. lia. Qed.

Lemma truncateText_grows_witness :
  String.length "abcd" < String.length (truncateText "abcd" 3).
Proof. apply truncateText_grows; simpl; lia. Defined.

(** ** Previews *)

Lemma orString_self (a : string) : orString (orString a a) "" = a.
Proof. by destruct a. Qed.

Lemma extractTextFromHTML_text (parseHTML : string -> list Node) (html : string) :
  extractTextFromHTML parseHTML html = textOfList (parseHTML html).
Proof.
  unfold extractTextFromHTML, innerText. cbv zeta.
  by rewrite orString_self, textContent_Elem.
Qed.

(** X14. The preview of a note is the text of its markup, whatever the
    markup is, cut to 100 characters: the fallbacks of
    [extractTextFromHTML] add nothing to [textContent], and the preview has
    at most 103 characters. *)
Theorem createPreview_bounds (parseHTML : string -> list Node) (html : string) :
  createPreview parseHTML html = truncateText (textOfList (parseHTML html)) 100
  /\ String.length (createPreview parseHTML html) <= 103.
Proof.
  assert (H : createPreview parseHTML html
              = truncateText (textOfList (parseHTML html)) 100).
  { unfold createPreview, pipe. simpl. by rewrite extractTextFromHTML_text. }
  split; [done |]. rewrite H.
  destruct (Nat.lt_ge_cases 100 (String.length (textOfList (parseHTML html))))
    as [Hl | Hl].
  - by rewrite truncateText_long_length.
  - rewrite truncateText_short by done. lia.
Qed.

(** ** Dates *)

(** X15. The label of a timestamp, at a reading of the clock that is a
    time value.  A timestamp that is not a time value gives the label of
    an invalid date.  Otherwise, by its age: under one minute (and for
    any timestamp in the future) it is the just-now label; else under one
    hour it counts whole minutes, from 1 to 59; else under one day whole
    hours, from 1 to 23; else under seven days whole days, from 1 to 6;
    from seven days on it is the date in the locale. *)
Theorem formatDate_cases (toLocaleDateString : Z -> string) (now timestamp : Z) :
  validTime now = true ->
  let age := (now - timestamp)%Z in
  let label := formatDate toLocaleDateString now timestamp in
  (validTime timestamp = false /\ label = "Invalid Date")
  \/ (validTime timestamp = true
      /\ (((age < 60000)%Z /\ label = justNow)
          \/ (exists m, (1 <= m < 60)%Z /\ (60000 * m <= age < 60000 * (m + 1))%Z
                        /\ label = "Il y a " +:+ pretty m +:+ " min")
          \/ (exists h, (1 <= h < 24)%Z /\ (3600000 * h <= age < 3600000 * (h + 1))%Z
                        /\ label = "Il y a " +:+ pretty h +:+ "h")
          \/ (exists d, (1 <= d < 7)%Z /\ (86400000 * d <= age < 86400000 * (d + 1))%Z
                        /\ label = "Il y a " +:+ pretty d +:+ "j")
          \/ ((604800000 <= age)%Z /\ label = toLocaleDateString timestamp))).
Proof.
  intros _ age label. unfold label, formatDate.
  destruct (validTime timestamp); [right; split; [done |] | by left].
  fold age. cbv zeta.
  pose proof (Z.div_mod age 60000 ltac:(lia)) as Hm.
  pose proof (Z.mod_pos_bound age 60000 ltac:(lia)) as Hm'.
  pose proof (Z.div_mod age 3600000 ltac:(lia)) as Hh.
  pose proof (Z.mod_pos_bound age 3600000 ltac:(lia)) as Hh'.
  pose proof (Z.div_mod age 86400000 ltac:(lia)) as Hd.
  pose proof (Z.mod_pos_bound age 86400000 ltac:(lia)) as Hd'.
  destruct (Z.ltb_spec (age / 60000) 1) as [H1 | H1]; [left; split; [lia | done] |].
  right.
  destruct (Z.ltb_spec (age / 60000) 60) as [H2 | H2].
  { left. exists (age / 60000)%Z. split; [lia |]. split; [lia | done]. }
  right.
  destruct (Z.ltb_spec (age / 3600000) 24) as [H3 | H3].
  { left. exists (age / 3600000)%Z. split; [lia |]. split; [lia | done]. }
  right.
  destruct (Z.ltb_spec (age / 86400000) 7) as [H4 | H4].
  { left. exists (age / 86400000)%Z. split; [lia |]. split; [lia | done]. }
  right. split; [lia | done].
Qed.

Lemma formatDate_cases_witness :
  formatDate (fun _ => "3 nov.") 1762138800000 1762138680000 = "Il y a 2 min"
  /\ formatDate (fun _ => "3 nov.") 1762138800000 8640000000000001 = "Invalid Date".
Proof.
  split.
  - destruct (formatDate_cases (fun _ => "3 nov.") 1762138800000 1762138680000 eq_refl)
      as [[H _] | [_ H]]; [discriminate H |].
    destruct H as [[H _] | [(m & Hm & Hage & H) | H]].
    + lia.
    + assert (m = 2%Z) as -> by lia. exact H.
    + destruct H as [(h & Hh & Hage & _) | [(d & Hd & Hage & _) | [Hage _]]]; lia.
  - destruct (formatDate_cases (fun _ => "3 nov.") 1762138800000 8640000000000001 eq_refl)
      as [[_ H] | [H _]]; [exact H | discriminate H].
Defined.

(** ** Sorting *)

Lemma StronglySorted_weaken {A : Type} (R S : A -> A -> Prop) (l : list A) :
  (forall x y, R x y -> S x y) -> StronglySorted R l -> StronglySorted S l.
Proof.
  intros H. induction 1 as [| x l _ IH Hx]; constructor; [done |].
  eapply Forall_impl; [exact Hx | apply H].
Qed.

Lemma StronglySorted_all {A : Type} (R : A -> A -> Prop) (l : list A) :
  (forall x y, x ∈ l -> y ∈ l -> R x y) -> StronglySorted R l.
Proof.
  induction l as [| x l IH]; intros H; constructor.
  - apply IH. intros y z Hy Hz. apply H; by right.
  - apply Forall_forall. intros y Hy. apply H; [left | by right].
Qed.

Section SortFacts.

Context {A : Type} (compareFn : A -> A -> Z).

Lemma insertSorted_Permutation (x : A) (l : list A) :
  insertSorted compareFn x l ≡ₚ x :: l.
Proof.
  induction l as [| y l IH]; [done |]. simpl.
  destruct (compareFn x y <=? 0)%Z; [done |].
  rewrite IH. apply Permutation_swap.
Qed.

Lemma sort_Permutation (l : list A) : sort compareFn l ≡ₚ l.
Proof.
  induction l as [| x l IH]; [done |]. simpl.
  by rewrite insertSorted_Permutation, IH.
Qed.

Lemma insertSorted_head (x : A) (l : list A) :
  Forall (inOrder compareFn x) l -> insertSorted compareFn x l = x :: l.
Proof.
  destruct l as [| y l]; [done |]. intros H. apply Forall_cons in H as [H _].
  simpl. unfold inOrder in H.
  by destruct (Z.leb_spec (compareFn x y) 0); [| lia].
Qed.

Lemma sort_sorted_id (l : list A) :
  StronglySorted (inOrder compareFn) l -> sort compareFn l = l.
Proof.
  induction 1 as [| x l _ IH Hx]; [done |]. simpl.
  fold (sort compareFn l). rewrite IH. by apply insertSorted_head.
Qed.

Hypothesis total : forall x y, (0 < compareFn x y)%Z -> (compareFn y x <= 0)%Z.

Hypothesis trans : forall x y z,
  inOrder compareFn x y -> inOrder compareFn y z -> inOrder compareFn x z.

Lemma insertSorted_sorted (x : A) (l : list A) :
  StronglySorted (inOrder compareFn) l ->
  StronglySorted (inOrder compareFn) (insertSorted compareFn x l).
Proof.
  induction 1 as [| y l Hs IH Hy]; [repeat constructor |]. simpl.
  destruct (Z.leb_spec (compareFn x y) 0) as [Hxy | Hxy].
  - constructor; [by constructor |]. constructor; [done |].
    eapply Forall_impl; [exact Hy |]. intros z Hz. by apply (trans x y z).
  - constructor; [done |]. rewrite insertSorted_Permutation.
    constructor; [by apply total | done].
Qed.

Lemma sort_sorted (l : list A) : StronglySorted (inOrder compareFn) (sort compareFn l).
Proof.
  induction l as [| x l IH]; [constructor |]. simpl. by apply insertSorted_sorted.
Qed.

Lemma filter_insertSorted (P : A -> Prop) `{!forall x, Decision (P x)}
    (x : A) (l : list A) :
  StronglySorted (inOrder compareFn) l ->
  filter P (insertSorted compareFn x l)
  = if decide (P x) then insertSorted compareFn x (filter P l) else filter P l.
Proof.
  induction 1 as [| y l Hs IH Hy]; [by rewrite filter_nil; simpl; rewrite filter_cons |].
  simpl. destruct (Z.leb_spec (compareFn x y) 0) as [Hxy | Hxy].
  - rewrite (filter_cons P x). destruct (decide (P x)) as [Hx | Hx]; [| done].
    symmetry. apply insertSorted_head. apply Forall_forall. intros z Hz.
    apply list_elem_of_filter in Hz as [_ Hz]. apply elem_of_cons in Hz as [-> | Hz]; [done |].
    apply (trans x y z); [done |]. by apply (proj1 (Forall_forall _ _) Hy).
  - rewrite (filter_cons P y), IH, (filter_cons P y).
    destruct (decide (P y)) as [Hpy | Hpy]; [| done].
    destruct (decide (P x)) as [Hx | Hx]; [| done]. simpl.
    by destruct (Z.leb_spec (compareFn x y) 0); [lia |].
Qed.

Lemma filter_sort (P : A -> Prop) `{!forall x, Decision (P x)} (l : list A) :
  filter P (sort compareFn l) = sort compareFn (filter P l).
Proof.
  induction l as [| x l IH]; [done |]. simpl.
  fold (sort compareFn l). rewrite filter_insertSorted by apply sort_sorted.
  rewrite filter_cons, IH. by destruct (decide (P x)).
Qed.

End SortFacts.

Section KeyOrder.

Context {A : Type} (key : A -> Z).

Lemma descending_total (x y : A) :
  (0 < descending key x y)%Z -> (descending key y x <= 0)%Z.
Proof. unfold descending. lia. Qed.

Lemma descending_trans (x y z : A) :
  inOrder (descending key) x y -> inOrder (descending key) y z ->
  inOrder (descending key) x z.
Proof. unfold inOrder, descending. lia. Qed.

Lemma sort_descending (l : list A) :
  StronglySorted (fun a b => (key b <= key a)%Z) (sort (descending key) l).
Proof.
  apply (StronglySorted_weaken (inOrder (descending key))).
  - unfold inOrder, descending. intros x y. lia.
  - apply sort_sorted; [apply descending_total | apply descending_trans].
Qed.

Lemma sort_descending_id (l : list A) :
  StronglySorted (fun a b => (key b <= key a)%Z) l -> sort (descending key) l = l.
Proof.
  intros H. apply sort_sorted_id. revert H. apply StronglySorted_weaken.
  unfold inOrder, descending. intros x y. lia.
Qed.

Lemma sort_descending_stable (k : Z) (l : list A) :
  filter (fun a => key a = k) (sort (descending key) l)
  = filter (fun a => key a = k) l.
Proof.
  rewrite filter_sort; [| apply descending_total | apply descending_trans].
  apply sort_sorted_id, StronglySorted_all. intros x y Hx Hy.
  apply list_elem_of_filter in Hx as [Hx _]. apply list_elem_of_filter in Hy as [Hy _].
  unfold inOrder, descending. lia.
Qed.

End KeyOrder.

(** X16. [sortNotesByModified] and [sortNotesByCreated] rearrange the notes
    they are given, none lost and none added, so that the timestamp never
    increases along the result. *)
Theorem sortNotes_sorted (notes : list Note.t) :
  (StronglySorted (fun a b => (Note.modified b <= Note.modified a)%Z)
     (sortNotesByModified notes)
   /\ Permutation (sortNotesByModified notes) notes)
  /\ (StronglySorted (fun a b => (Note.created b <= Note.created a)%Z)
        (sortNotesByCreated notes)
      /\ Permutation (sortNotesByCreated notes) notes).
Proof.
  split; (split; [| apply sort_Permutation]).
  - apply (sort_descending Note.modified).
  - apply (sort_descending Note.created).
Qed.

(** X17. The sorts are stable: the notes with one and the same timestamp
    come out in the order in which they went in. *)
Theorem sortNotes_stable (notes : list Note.t) (k : Z) :
  filter (fun n => Note.modified n = k) (sortNotesByModified notes)
  = filter (fun n => Note.modified n = k) notes
  /\ filter (fun n => Note.created n = k) (sortNotesByCreated notes)
     = filter (fun n => Note.created n = k) notes.
Proof.
  split.
  - apply (sort_descending_stable Note.modified).
  - apply (sort_descending_stable Note.created).
Qed.

(** X18. Notes that are already in the order of the sort are given back as
    they are. *)
Theorem sortNotesByModified_sorted_input (notes : list Note.t) :
  StronglySorted (fun a b => (Note.modified b <= Note.modified a)%Z) notes ->
  sortNotesByModified notes = notes.
Proof. apply (sort_descending_id Note.modified). Qed.

Lemma sortNotesByModified_sorted_input_witness :
  sortNotesByModified sortedNotes = sortedNotes.
Proof.
  apply sortNotesByModified_sorted_input. unfold sortedNotes.
  repeat constructor; simpl; lia.
Defined.

(** ** The list of notes shown *)

Section ListingFacts.

Variable parseHTML : string -> list Node.

Variable toLowerCase : string -> string.

Variable localeCompare : string -> string -> Z.

(** X19. Filtering and sorting by timestamp can be done in either order:
    the notes of a folder, or the notes that match a query, sorted, are the
    sorted notes filtered. *)
Theorem filter_sort_commute (folderId : option string) (query : string)
    (notes : list Note.t) :
  sortNotesByModified (filterNotesByFolder folderId notes)
  = filterNotesByFolder folderId (sortNotesByModified notes)
  /\ sortNotesByModified (searchNotes parseHTML toLowerCase query notes)
     = searchNotes parseHTML toLowerCase query (sortNotesByModified notes)
  /\ sortNotesByCreated (filterNotesByFolder folderId notes)
     = filterNotesByFolder folderId (sortNotesByCreated notes)
  /\ sortNotesByCreated (searchNotes parseHTML toLowerCase query notes)
     = searchNotes parseHTML toLowerCase query (sortNotesByCreated notes).
Proof.
  unfold filterNotesByFolder, searchNotes, sortNotesByModified, sortNotesByCreated.
  cbv zeta.
  repeat split; try (destruct (truthy folderId); [| done]); symmetry;
    apply filter_sort;
    solve [apply (descending_total Note.modified)
          | apply (descending_trans Note.modified)
          | apply (descending_total Note.created)
          | apply (descending_trans Note.created)].
Qed.

Lemma filterNotesByFolder_elem (folderId : option string) (notes : list Note.t)
    (note : Note.t) :
  note ∈ filterNotesByFolder folderId notes
  <-> note ∈ notes /\ (truthy folderId = true -> Note.folderId note = folderId).
Proof.
  unfold filterNotesByFolder. destruct (truthy folderId).
  - rewrite list_elem_of_filter. tauto.
  - intuition discriminate.
Qed.

Lemma filterNotesByFolder_sub (folderId : option string) (notes : list Note.t) :
  filterNotesByFolder folderId notes ⊆+ notes.
Proof.
  unfold filterNotesByFolder. destruct (truthy folderId); [| done].
  apply sublist_submseteq, sublist_filter.
Qed.

(** X20. The notes shown are notes of the application state, each at most
    as often as it is there: exactly those that are in the current folder,
    when there is one, and that match the query, when it is not empty.
    They are in the order of the chosen sort; any [sortBy] other than
    [created] and [title] sorts by modification. *)
Theorem getFilteredAndSortedNotes_shown (appState : AppState) :
  let shown := getFilteredAndSortedNotes parseHTML toLowerCase localeCompare appState in
  shown ⊆+ notes appState
  /\ (forall note,
        note ∈ shown
        <-> note ∈ notes appState
            /\ inCurrentFolder appState note
            /\ (searchQuery appState <> ""
                -> matchesQuery parseHTML toLowerCase
                     (toLowerCase (searchQuery appState)) note = true))
  /\ (sortBy appState = "created" ->
      StronglySorted (fun a b => (Note.created b <= Note.created a)%Z) shown)
  /\ (sortBy appState <> "created" -> sortBy appState <> "title" ->
      StronglySorted (fun a b => (Note.modified b <= Note.modified a)%Z) shown).
Proof.
  intros shown. unfold shown, getFilteredAndSortedNotes. cbv zeta.
  set (notes1 := match currentFolder appState with
                 | Some folder => filterNotesByFolder (Some (Folder.id folder)) (notes appState)
                 | None => notes appState
                 end).
  set (notes2 := if truthy (Some (searchQuery appState))
                 then searchNotes parseHTML toLowerCase (searchQuery appState) notes1
                 else notes1).
  assert (H1 : notes1 ⊆+ notes appState).
  { unfold notes1. destruct (currentFolder appState); [| done].
    apply filterNotesByFolder_sub. }
  assert (H2 : notes2 ⊆+ notes1).
  { unfold notes2. destruct (truthy _); [| done].
    apply sublist_submseteq, sublist_filter. }
  assert (E1 : forall note, note ∈ notes1
                 <-> note ∈ notes appState /\ inCurrentFolder appState note).
  { intros note. unfold notes1, inCurrentFolder.
    destruct (currentFolder appState) as [folder |]; [| tauto].
    apply filterNotesByFolder_elem. }
  assert (E2 : forall note, note ∈ notes2
                 <-> note ∈ notes1
                     /\ (searchQuery appState <> ""
                         -> matchesQuery parseHTML toLowerCase
                              (toLowerCase (searchQuery appState)) note = true)).
  { intros note. unfold notes2, searchNotes.
    destruct (searchQuery appState) as [| c q]; simpl; [tauto |].
    rewrite list_elem_of_filter. intuition discriminate. }
  assert (P : forall cmp : Note.t -> Note.t -> Z, sort cmp notes2 ≡ₚ notes2)
    by (intros; apply sort_Permutation).
  set (result := if String.eqb (sortBy appState) "created" then sortNotesByCreated notes2
                 else if String.eqb (sortBy appState) "title"
                      then sortNotesByTitle localeCompare notes2
                      else sortNotesByModified notes2).
  assert (HP : result ≡ₚ notes2).
  { unfold result. repeat case_match; apply P. }
  split; [by rewrite HP, H2 |]. split.
  - intros note. rewrite HP, E2, E1. tauto.
  - unfold result. split.
    + intros ->. simpl. apply (sort_descending Note.created).
    + intros Hc Ht.
      destruct (String.eqb_spec (sortBy appState) "created"); [done |].
      destruct (String.eqb_spec (sortBy appState) "title"); [done |].
      apply (sort_descending Note.modified).
Qed.

End ListingFacts.
